(** * memcache-plus: the single-socket connection (lib/connection.js)

    A shallow embedding of [Connection]: its fields, the socket listeners
    installed by [connect], the line parser [read], the write buffer
    ([write], [flushQueue]) and the four commands ([set], [get], [delete],
    [autodiscovery]) with the callbacks chained on their promises.

    JavaScript statements mutate the connection and may throw, so the code is
    written in a state-and-exception monad over the [Connection] record: a
    thrown exception keeps every assignment made before it, exactly as in the
    source. *)

From Stdlib Require Import String Ascii List ZArith Lia Bool DecimalString.
Import ListNotations.
Open Scope string_scope.

(** ** Values, errors and formatting *)

(** The JavaScript values that reach this file: keys and option values given
    by the caller, the lines delivered by the line splitter (strings), the
    [null] written into [this.data], and what the promise callbacks return. *)
Inductive jsval :=
| JUndefined
| JNull
| JBool (b : bool)
| JNum (n : Z)
| JStr (s : string)
| JArr (l : list string).

(** Exceptions.  A [TypeError] records the property that was read off
    [undefined] or [null]; the message text of the engine is not modelled. *)
Inductive jserror :=
| AssertionError (msg : string)
| TypeError (prop : string)
| Error (msg : string).

(** How a promise ends. *)
Inductive settlement :=
| Resolved (v : jsval)
| Rejected (e : jserror).

Definition CRLF : string :=
  String (ascii_of_nat 13) (String (ascii_of_nat 10) EmptyString).

(** Decimal text of an integer, as [%d] and [String(n)] print it.  This is
    the text of a JavaScript number for the integers it holds exactly and
    prints in plain digits, those below 2^53 in absolute value; from 1e21
    on the runtime prints an exponent instead, which is not modelled. *)
Definition dec (n : Z) : string := NilZero.string_of_int (Z.to_int n).

(** [util.format('%s', v)].  Numbers are printed by [dec], with its limit;
    an array is printed as its elements joined by commas, which is the text
    of the runtimes that apply [String] to every argument (later ones print
    an inspected form instead). *)
Definition fmt_s (v : jsval) : string :=
  match v with
  | JUndefined => "undefined"
  | JNull => "null"
  | JBool true => "true"
  | JBool false => "false"
  | JNum n => dec n
  | JStr s => s
  | JArr l => String.concat "," l
  end.

(** [v.toString()]: a method call, so it throws on [undefined] and [null]. *)
Definition toString (v : jsval) : jserror + string :=
  match v with
  | JUndefined | JNull => inl (TypeError "toString")
  | _ => inr (fmt_s v)
  end.

(** Truthiness, as tested by [if (v)] and [v || d]. *)
Definition truthy (v : jsval) : bool :=
  match v with
  | JUndefined | JNull => false
  | JBool b => b
  | JNum n => negb (n =? 0)%Z
  | JStr s => negb (s =? "")
  | JArr _ => true
  end.

(** [v === s] for a string literal [s]. *)
Definition strict_eq_str (v : jsval) (s : string) : bool :=
  match v with
  | JStr t => t =? s
  | _ => false
  end.

(** [s.substr(0, n)]. *)
Definition substr0 (n : nat) (s : string) : string := substring 0 n s.

(** [s.split(sep)] for a one-character separator: empty pieces are kept and
    the empty string splits into one empty piece. *)
Fixpoint split (sep : ascii) (s : string) : list string :=
  match s with
  | EmptyString => [EmptyString]
  | String ch rest =>
      if Ascii.eqb ch sep then EmptyString :: split sep rest
      else match split sep rest with
           | [] => [String ch EmptyString]
           | piece :: pieces => String ch piece :: pieces
           end
  end.

(** [a[i]] on an array of strings: [undefined] past the end. *)
Definition index (a : list string) (i : nat) : jsval :=
  match nth_error a i with
  | Some s => JStr s
  | None => JUndefined
  end.

(** ** Pending commands *)

(** The command that created a deferred, which fixes the callback chained on
    its promise. *)
Inductive command := CmdSet | CmdGet | CmdDelete | CmdAutodiscovery.

(** Modelled from the spec: [misc.defer(key)] of lib/misc.js, which is not
    part of the sources read here.  It creates
    [{future, resolve(value), reject(error)}] carrying the correlation key;
    the future completes exactly once.  [d_id] is the identity of the object
    (the number of deferreds created before it) and [cmd] remembers which
    command attached its callback. *)
Record deferred := mkDeferred {
  d_id : nat;
  key : jsval;
  cmd : command
}.

(** ** The socket and the connection *)

(** The [net.Socket] held in [this.client], reduced to what the connection
    does with it.  [sk_ready] and [sk_backoff] are the properties named
    [ready] and [backoff] of the socket object itself: the ['close'] listener
    is a plain function, so its [this] is the emitter it is registered on. *)
Record Socket := mkSocket {
  sk_written : list string;      (* chunks given to client.write, oldest first *)
  sk_connects : nat;             (* connect attempts on this handle *)
  sk_destroyed : bool;           (* client.destroy() was called *)
  sk_ended : bool;               (* client.end() was called *)
  sk_ready : option bool;        (* socket.ready, undefined until assigned *)
  sk_backoff : option Z          (* socket.backoff, undefined until assigned *)
}.

(** Operations the application may invoke; also the vocabulary of an
    [onConnect] callback, which is given as the list of operations it
    performs on the connection. *)
Inductive call :=
| CallSet (k : jsval) (val : string) (ttl : option Z)
| CallGet (k : jsval)
| CallDelete (k : jsval)
| CallAutodiscovery
| CallDisconnect.

Record Connection := mkConnection {
  host : string;
  port : string;
  queue : list deferred;                    (* this.queue, head first *)
  onConnect : option (list call);
  reconnect : bool;
  disconnecting : bool;
  ready : bool;
  backoff : Z;
  client : option Socket;
  data : jsval;                             (* this.data *)
  writeBuffer : option (list string);       (* this.writeBuffer, head first *)
  (* observation of the run, not fields of the object *)
  settled : list (deferred * settlement);   (* resolve/reject calls, oldest first *)
  next_id : nat;                            (* deferreds created so far *)
  timers : list (option Z)                  (* delays given to setTimeout, oldest first *)
}.

Definition set_queue (q : list deferred) (c : Connection) : Connection :=
  mkConnection (host c) (port c) q (onConnect c) (reconnect c)
    (disconnecting c) (ready c) (backoff c) (client c) (data c)
    (writeBuffer c) (settled c) (next_id c) (timers c).

Definition set_disconnecting (b : bool) (c : Connection) : Connection :=
  mkConnection (host c) (port c) (queue c) (onConnect c) (reconnect c)
    b (ready c) (backoff c) (client c) (data c)
    (writeBuffer c) (settled c) (next_id c) (timers c).

Definition set_ready (b : bool) (c : Connection) : Connection :=
  mkConnection (host c) (port c) (queue c) (onConnect c) (reconnect c)
    (disconnecting c) b (backoff c) (client c) (data c)
    (writeBuffer c) (settled c) (next_id c) (timers c).

Definition set_backoff (n : Z) (c : Connection) : Connection :=
  mkConnection (host c) (port c) (queue c) (onConnect c) (reconnect c)
    (disconnecting c) (ready c) n (client c) (data c)
    (writeBuffer c) (settled c) (next_id c) (timers c).

Definition set_client (k : option Socket) (c : Connection) : Connection :=
  mkConnection (host c) (port c) (queue c) (onConnect c) (reconnect c)
    (disconnecting c) (ready c) (backoff c) k (data c)
    (writeBuffer c) (settled c) (next_id c) (timers c).

Definition set_data (v : jsval) (c : Connection) : Connection :=
  mkConnection (host c) (port c) (queue c) (onConnect c) (reconnect c)
    (disconnecting c) (ready c) (backoff c) (client c) v
    (writeBuffer c) (settled c) (next_id c) (timers c).

Definition set_writeBuffer (w : option (list string)) (c : Connection) : Connection :=
  mkConnection (host c) (port c) (queue c) (onConnect c) (reconnect c)
    (disconnecting c) (ready c) (backoff c) (client c) (data c)
    w (settled c) (next_id c) (timers c).

Definition set_settled (l : list (deferred * settlement)) (c : Connection) : Connection :=
  mkConnection (host c) (port c) (queue c) (onConnect c) (reconnect c)
    (disconnecting c) (ready c) (backoff c) (client c) (data c)
    (writeBuffer c) l (next_id c) (timers c).

Definition set_next_id (n : nat) (c : Connection) : Connection :=
  mkConnection (host c) (port c) (queue c) (onConnect c) (reconnect c)
    (disconnecting c) (ready c) (backoff c) (client c) (data c)
    (writeBuffer c) (settled c) n (timers c).

Definition set_timers (t : list (option Z)) (c : Connection) : Connection :=
  mkConnection (host c) (port c) (queue c) (onConnect c) (reconnect c)
    (disconnecting c) (ready c) (backoff c) (client c) (data c)
    (writeBuffer c) (settled c) (next_id c) t.

(** ** The monad of connection methods *)

Inductive result (A : Type) :=
| Ok (a : A)
| Throw (e : jserror).
Arguments Ok {A} a.
Arguments Throw {A} e.

Definition M (A : Type) : Type := Connection -> result A * Connection.

Definition ret {A} (a : A) : M A := fun c => (Ok a, c).

Definition bind {A B} (m : M A) (k : A -> M B) : M B :=
  fun c =>
    match m c with
    | (Ok a, c') => k a c'
    | (Throw e, c') => (Throw e, c')
    end.

Definition throw {A} (e : jserror) : M A := fun c => (Throw e, c).
Definition this : M Connection := fun c => (Ok c, c).
Definition assign (f : Connection -> Connection) : M unit := fun c => (Ok tt, f c).

Notation "x <- m ;; k" := (bind m (fun x => k))
  (at level 61, m at next level, right associativity).
Notation "m ;; k" := (bind m (fun _ => k))
  (at level 61, right associativity).

(** [assert(cond, msg)]. *)
Definition assert (cond : bool) (msg : string) : M unit :=
  if cond then ret tt else throw (AssertionError msg).

(** The state a method leaves behind, whether it returned or threw. *)
Definition exec {A} (m : M A) (c : Connection) : Connection := snd (m c).

(** ** Socket calls *)

Definition sock_write (chunk : string) (sk : Socket) : Socket :=
  mkSocket (sk_written sk ++ [chunk])%list (sk_connects sk) (sk_destroyed sk)
    (sk_ended sk) (sk_ready sk) (sk_backoff sk).

Definition sock_connect (sk : Socket) : Socket :=
  mkSocket (sk_written sk) (S (sk_connects sk)) (sk_destroyed sk)
    (sk_ended sk) (sk_ready sk) (sk_backoff sk).

Definition sock_destroy (sk : Socket) : Socket :=
  mkSocket (sk_written sk) (sk_connects sk) true
    (sk_ended sk) (sk_ready sk) (sk_backoff sk).

Definition sock_end (sk : Socket) : Socket :=
  mkSocket (sk_written sk) (sk_connects sk) (sk_destroyed sk)
    true (sk_ready sk) (sk_backoff sk).

Definition sock_props (r : option bool) (b : option Z) (sk : Socket) : Socket :=
  mkSocket (sk_written sk) (sk_connects sk) (sk_destroyed sk)
    (sk_ended sk) r b.

(** [net.connect(params)]: a fresh handle with one connect attempt under way. *)
Definition net_connect : Socket := mkSocket [] 1 false false None None.

(** [this.client.m(...)]: reading [m] off an undefined client throws. *)
Definition on_client (prop : string) (f : Socket -> Socket) : M unit :=
  fun c =>
    match client c with
    | Some sk => (Ok tt, set_client (Some (f sk)) c)
    | None => (Throw (TypeError prop), c)
    end.

Definition client_write (chunk : string) : M unit :=
  on_client "write" (sock_write chunk).

(** ** Write buffer: [flushQueue] and [write] *)

(** The [while] loop of [flushQueue] over the chunks still buffered: each
    turn shifts the head off [this.writeBuffer] and gives it to the socket. *)
Fixpoint drain (chunks : list string) : M unit :=
  match chunks with
  | [] => ret tt
  | chunk :: rest =>
      client_write chunk ;;
      assign (set_writeBuffer (Some rest)) ;;
      drain rest
  end.

Definition flushQueue : M unit :=
  c <- this ;;
  match writeBuffer c with
  | Some (chunk :: rest) => drain (chunk :: rest)
  | _ => ret tt
  end.

(** [this.writeBuffer] once [write] has made sure it exists. *)
Definition buffered (c : Connection) : list string :=
  match writeBuffer c with
  | Some b => b
  | None => []
  end.

Definition buffer_push (chunk : string) : M unit :=
  assign (fun c => set_writeBuffer (Some (buffered c ++ [chunk])%list) c).

Definition write (str : string) : M unit :=
  assign (fun c => set_writeBuffer (Some (buffered c)) c) ;;
  c <- this ;;
  if ready c && (0 <? length (buffered c))%nat then
    client_write str ;;
    client_write CRLF
  else
    buffer_push str ;;
    buffer_push CRLF ;;
    c' <- this ;;
    if ready c' then flushQueue else ret tt.

(** ** The line parser: [read] *)

(** [this.queue.peek()]: the head, or [undefined] on an empty queue. *)
Definition peek : M (option deferred) :=
  c <- this ;; ret (hd_error (queue c)).

(** [this.queue.shift()]: nothing happens on an empty queue. *)
Definition shift : M unit := assign (fun c => set_queue (tl (queue c)) c).

(** [deferred.resolve(v)] and [deferred.reject(e)] on what [peek] returned. *)
Definition settle (d : option deferred) (prop : string) (s : settlement) : M unit :=
  match d with
  | Some d => assign (fun c => set_settled (settled c ++ [(d, s)])%list c)
  | None => throw (TypeError prop)
  end.

Definition resolve (d : option deferred) (v : jsval) : M unit :=
  settle d "resolve" (Resolved v).

Definition reject (d : option deferred) (e : jserror) : M unit :=
  settle d "reject" (Rejected e).

(** [deferred.key] inside the error message of [read]. *)
Definition key_of (d : option deferred) : M jsval :=
  match d with
  | Some d => ret (key d)
  | None => throw (TypeError "key")
  end.

(** [read] is the listener given to [carrier.carry], which splits what the
    socket receives at line ends and hands over each line, as a string and
    without its terminator; [data.toString()] is that string. *)
Definition read (line : string) : M unit :=
  deferred <- peek ;;
  if substr0 5 line =? "ERROR" then
    c <- this ;;
    if (0 <? length (queue c))%nat then
      shift ;;
      k <- key_of deferred ;;
      reject deferred
        (Error ("Memcache returned an error: " ++ line ++ CRLF ++ "For key " ++ fmt_s k)) ;;
      assign (set_data JNull)
    else ret tt
  else if substr0 5 line =? "VALUE" then
    ret tt
  else if substr0 3 line =? "END" then
    shift ;;
    c <- this ;;
    resolve deferred (data c) ;;
    assign (set_data JNull)
  else if (substr0 6 line =? "STORED") || (substr0 7 line =? "DELETED") then
    shift ;;
    resolve deferred (JStr line) ;;
    assign (set_data JNull)
  else if substr0 9 line =? "NOT_FOUND" then
    shift ;;
    resolve deferred (JStr line) ;;
    assign (set_data JNull)
  else if negb (line =? "") then
    assign (set_data (JStr line))
  else ret tt.

(** ** Commands *)

(** [misc.defer(key)] followed by [this.queue.push(deferred)]. *)
Definition defer (k : jsval) (cm : command) : M deferred :=
  fun c => (Ok (mkDeferred (next_id c) k cm), set_next_id (S (next_id c)) c).

Definition queue_push (d : deferred) : M unit :=
  assign (fun c => set_queue (queue c ++ [d])%list c).

(** [typeof key === 'string'] and [key.length < 250]; the second is only
    evaluated for a string ([length] of an array is its size, of the other
    values [undefined], which is not below any number). *)
Definition is_string (k : jsval) : bool :=
  match k with
  | JStr _ => true
  | _ => false
  end.

Definition length_below (k : jsval) (n : nat) : bool :=
  match k with
  | JStr s => (String.length s <? n)%nat
  | JArr l => (length l <? n)%nat
  | _ => false
  end.

(** [ttl || 0]. *)
Definition ttl_or_0 (ttl : option Z) : Z :=
  match ttl with
  | Some n => if (n =? 0)%Z then 0%Z else n
  | None => 0%Z
  end.

(** The value of [set] is a string here, and [new Buffer(val).length] its
    number of bytes.  A call without a value, or with null, is not covered:
    there [new Buffer(val)] throws after the deferred was queued and before
    anything is written. *)
Definition set (k : jsval) (val : string) (ttl : option Z) : M deferred :=
  assert (is_string k) "Cannot set in memcache with a not string key" ;;
  assert (length_below k 250) "Key must be less than 250 characters long" ;;
  let ttl := ttl_or_0 ttl in
  deferred <- defer k CmdSet ;;
  queue_push deferred ;;
  write ("set " ++ fmt_s k ++ " 0 " ++ dec ttl ++ " "
           ++ dec (Z.of_nat (String.length val))) ;;
  write val ;;
  ret deferred.

Definition get (k : jsval) : M deferred :=
  deferred <- defer k CmdGet ;;
  queue_push deferred ;;
  write ("get " ++ fmt_s k) ;;
  ret deferred.

Definition delete (k : jsval) : M deferred :=
  deferred <- defer k CmdDelete ;;
  queue_push deferred ;;
  write ("delete " ++ fmt_s k) ;;
  ret deferred.

Definition autodiscovery : M deferred :=
  deferred <- defer (JStr "autodiscovery") CmdAutodiscovery ;;
  queue_push deferred ;;
  write "config get cluster" ;;
  ret deferred.

(** ** The callbacks chained with [.then] on [deferred.promise] *)

(** A callback that returns resolves the returned promise, one that throws
    rejects it. *)
Definition then_set (data : jsval) : settlement :=
  match toString data with
  | inl e => Rejected e
  | inr s =>
      if negb (s =? "STORED") then
        Rejected (Error ("Something went wrong with the set. Expected STORED, got :"
                           ++ s ++ ":"))
      else Resolved JUndefined
  end.

Definition then_get (data : jsval) : settlement :=
  if truthy data then
    match toString data with
    | inl e => Rejected e
    | inr s => Resolved (JStr s)
    end
  else Resolved JNull.

Definition then_delete (v : jsval) : settlement :=
  if strict_eq_str v "DELETED" then Resolved (JBool true)
  else Resolved (JBool false).

Definition then_autodiscovery (data : jsval) : settlement :=
  match toString data with
  | inl e => Rejected e
  | inr s =>
      let hosts := split " " s in
      Resolved (JArr (map (fun host =>
                             let host := split "|" host in
                             fmt_s (index host 0) ++ ":" ++ fmt_s (index host 2))
                          hosts))
  end.

(** The promise a command returns, given how its deferred was settled: a
    rejection passes through, a value goes through the command's callback. *)
Definition future (d : deferred) (s : settlement) : settlement :=
  match s with
  | Rejected e => Rejected e
  | Resolved v =>
      match cmd d with
      | CmdSet => then_set v
      | CmdGet => then_get v
      | CmdDelete => then_delete v
      | CmdAutodiscovery => then_autodiscovery v
      end
  end.

(** ** Connection life cycle *)

(** [connect] opens the socket, or connects the existing handle again.  The
    listeners it installs are the handlers below; the source installs the
    ['connect'] listener and the line splitter anew at every call, so after
    a reconnect one event of the socket runs them once per installation.
    Each such run is one [event] of a run here. *)
Definition connect : M unit :=
  c <- this ;;
  match client c with
  | Some sk => assign (set_client (Some (sock_connect sk)))
  | None => assign (set_client (Some net_connect))
  end.

Definition disconnect : M unit :=
  assign (set_ready false) ;;
  assign (set_disconnecting true) ;;
  on_client "end" sock_end.

(** [b < 60000] and [b *= 2] on a property that may be [undefined]:
    [undefined < n] is false. *)
Definition backoff_step (b : option Z) : option Z :=
  match b with
  | Some n => if (n <? 60000)%Z then Some (n * 2)%Z else Some n
  | None => None
  end.

(** The ['close'] listener.  It is registered as a plain function, so [this]
    is the socket: it assigns [ready] and reads and doubles [backoff] on the
    socket object, then hands that [backoff] to [setTimeout]. *)
Definition on_close : M unit :=
  c <- this ;;
  match client c with
  | Some sk =>
      let b := backoff_step (sk_backoff sk) in
      assign (set_client (Some (sock_props (Some false) b sk))) ;;
      assign (fun c => set_timers (timers c ++ [b])%list c)
  | None => ret tt
  end.

(** The timer callback, which closes over [self]. *)
Definition on_timer : M unit :=
  c <- this ;;
  if negb (disconnecting c) then
    on_client "destroy" sock_destroy ;;
    connect
  else ret tt.

Definition do_call (cl : call) : M unit :=
  match cl with
  | CallSet k val ttl => set k val ttl ;; ret tt
  | CallGet k => get k ;; ret tt
  | CallDelete k => delete k ;; ret tt
  | CallAutodiscovery => autodiscovery ;; ret tt
  | CallDisconnect => disconnect
  end.

Fixpoint do_calls (cls : list call) : M unit :=
  match cls with
  | [] => ret tt
  | cl :: rest => do_call cl ;; do_calls rest
  end.

(** The ['connect'] listener, bound to the connection. *)
Definition on_connect : M unit :=
  assign (set_ready true) ;;
  assign (set_backoff 10) ;;
  c <- this ;;
  match onConnect c with
  | Some callback => do_calls callback ;; flushQueue
  | None => flushQueue
  end.

(** Constructor options; [None] is a property left out. *)
Record options := mkOptions {
  opt_host : option string;
  opt_port : option string;
  opt_reconnect : option bool;
  opt_onConnect : option (list call);
  opt_backoff : option Z
}.

Definition or_default {A} (o : option A) (d : A) : A :=
  match o with
  | Some a => a
  | None => d
  end.

(** [opts.backoff || 10]. *)
Definition backoff_or_10 (b : option Z) : Z :=
  match b with
  | Some n => if (n =? 0)%Z then 10%Z else n
  | None => 10%Z
  end.

Definition new_Connection (opts : options) : Connection :=
  exec connect
    (mkConnection
       (or_default (opt_host opts) "localhost")
       (or_default (opt_port opts) "11211")
       []
       (opt_onConnect opts)
       (or_default (opt_reconnect opts) true)
       false
       false
       (backoff_or_10 (opt_backoff opts))
       None
       JUndefined
       None
       [] 0 []).

Definition default_options : options := mkOptions None None None None None.

(** ** Runs *)

(** One event is one invocation of one entry point: a call by the
    application, one line handed to [read] by a line splitter, or one
    invocation of a socket listener or of a timer callback.  The ['close']
    listener only exists when [reconnect] was set. *)
Inductive event :=
| Call (cl : call)
| Line (line : string)
| SocketConnect
| SocketClose
| TimerFires.

Definition handle (e : event) : M unit :=
  match e with
  | Call cl => do_call cl
  | Line line => read line
  | SocketConnect => on_connect
  | SocketClose =>
      c <- this ;;
      if reconnect c then on_close else ret tt
  | TimerFires =>
      c <- this ;;
      match timers c with
      | [] => ret tt
      | _ :: later => assign (set_timers later) ;; on_timer
      end
  end.

(** An exception leaves the handler; the connection keeps the state it had
    at that point and later events still find it. *)
Definition run (evs : list event) (c : Connection) : Connection :=
  fold_left (fun c e => exec (handle e) c) evs c.

(** The promises settled so far, by number, each with its outcome, in the
    order of the [resolve] and [reject] calls on their deferreds. *)
Definition outcomes (c : Connection) : list (nat * settlement) :=
  map (fun p => (d_id (fst p), future (fst p) (snd p))) (settled c).

(** * Vocabulary of the properties *)

(** The class [read] gives a line: the tests of its [if] chain, in order. *)
Inductive line_class :=
| IsError | IsValue | IsEnd | IsStoredDeleted | IsNotFound | IsData | IsEmpty.

Definition classify (line : string) : line_class :=
  if substr0 5 line =? "ERROR" then IsError
  else if substr0 5 line =? "VALUE" then IsValue
  else if substr0 3 line =? "END" then IsEnd
  else if (substr0 6 line =? "STORED") || (substr0 7 line =? "DELETED")
       then IsStoredDeleted
  else if substr0 9 line =? "NOT_FOUND" then IsNotFound
  else if negb (line =? "") then IsData
  else IsEmpty.

(** A terminal line ends the response of the oldest pending command. *)
Definition terminal (line : string) : bool :=
  match classify line with
  | IsError | IsEnd | IsStoredDeleted | IsNotFound => true
  | IsValue | IsData | IsEmpty => false
  end.

(** The connection after [read] has shifted [d] off the queue and settled it. *)
Definition completed (d : deferred) (s : settlement) (rest : list deferred)
    (c : Connection) : Connection :=
  set_data JNull (set_settled (settled c ++ [(d, s)])%list (set_queue rest c)).

Definition error_of (line : string) (d : deferred) : jserror :=
  Error ("Memcache returned an error: " ++ line ++ CRLF ++ "For key " ++ fmt_s (key d)).

Definition mismatch_of (got : string) : jserror :=
  Error ("Something went wrong with the set. Expected STORED, got :" ++ got ++ ":").

(** The part of the connection that matches responses to commands. *)
Definition correlation (c : Connection) :=
  (queue c, settled c, next_id c, data c).

Definition frames {A} (m : M A) : Prop :=
  forall c, correlation (snd (m c)) = correlation c.

(** Deferreds are numbered in creation order; those already settled, in the
    order they were settled, followed by those still queued, are exactly the
    deferreds created so far, in creation order. *)
Definition fifo (c : Connection) : Prop :=
  (map (fun p => d_id (fst p)) (settled c) ++ map d_id (queue c))%list
  = seq 0 (next_id c).

(** [this.data] is [undefined], [null], or a line [read] kept as data. *)
Definition data_wf (c : Connection) : Prop :=
  match data c with
  | JUndefined | JNull => True
  | JStr v => classify v = IsData
  | _ => False
  end.

Definition sound (c : Connection) : Prop := fifo c /\ data_wf c.

Definition keeps {A} (m : M A) : Prop :=
  forall c, sound c -> sound (snd (m c)).

(** How [read] settles the head [d] on a terminal line. *)
Definition verdict (d : deferred) (pending : jsval) (line : string) : settlement :=
  match classify line with
  | IsError => Rejected (error_of line d)
  | IsEnd => Resolved pending
  | _ => Resolved (JStr line)
  end.

(** With a socket in [this.client] a method returns normally and leaves a
    socket there; without one, the only exception is the TypeError of the
    call on the missing socket. *)
Definition tame {A} (m : M A) : Prop :=
  forall c,
    (client c <> None ->
     client (snd (m c)) <> None /\ exists a, fst (m c) = Ok a)
    /\ (forall e, fst (m c) = Throw e -> exists prop, e = TypeError prop).

(** One cluster node as the service reports it. *)
Record node := mkNode {
  node_hostname : string;
  node_ip : string;
  node_port : string
}.

Definition token (n : node) : string :=
  node_hostname n ++ "|" ++ node_ip n ++ "|" ++ node_port n.

Definition payload (ns : list node) : string :=
  String.concat " " (map token ns).

(** [ch] occurs in [s]. *)
Fixpoint occurs (ch : ascii) (s : string) : bool :=
  match s with
  | EmptyString => false
  | String x rest => Ascii.eqb x ch || occurs ch rest
  end.

(** The three fields hold neither of the two separators. *)
Definition plain (s : string) : bool :=
  negb (occurs " " s) && negb (occurs "|" s).

Definition well_formed (n : node) : bool :=
  plain (node_hostname n) && plain (node_ip n) && plain (node_port n).

(** Everything given to the socket so far. *)
Definition written (c : Connection) : list string :=
  match client c with
  | Some sk => sk_written sk
  | None => []
  end.

(** ** Vocabulary of the further properties *)

(** A method keeps a property of the connection, returning or throwing. *)
Definition preserves {A} (P : Connection -> Prop) (m : M A) : Prop :=
  forall c, P c -> P (snd (m c)).

(** The socket after [client.write] was called on each chunk in turn. *)
Definition sock_writes (chunks : list string) (sk : Socket) : Socket :=
  fold_left (fun sk chunk => sock_write chunk sk) chunks sk.

(** What was handed to [write] and is on the socket or still buffered. *)
Definition stream (c : Connection) : list string :=
  (written c ++ buffered c)%list.

(** The header line of a set: key, flags 0, [ttl || 0], byte length. *)
Definition set_header (k val : string) (ttl : option Z) : string :=
  "set " ++ k ++ " 0 "
    ++ dec (match ttl with Some n => n | None => 0%Z end)
    ++ " " ++ dec (Z.of_nat (String.length val)).

(** The chunks a call hands to [write], in order; a set whose key fails the
    checks hands over none. *)
Definition wire (cl : call) : list string :=
  match cl with
  | CallSet (JStr k) val ttl =>
      if (String.length k <? 250)%nat
      then [set_header k val ttl; CRLF; val; CRLF]
      else []
  | CallSet _ _ _ => []
  | CallGet k => ["get " ++ fmt_s k; CRLF]
  | CallDelete k => ["delete " ++ fmt_s k; CRLF]
  | CallAutodiscovery => ["config get cluster"; CRLF]
  | CallDisconnect => []
  end.

Definition wire_of (e : event) : list string :=
  match e with
  | Call cl => wire cl
  | _ => []
  end.

(** A connection built without an [onConnect] callback, between two events:
    it has its socket, and nothing is buffered while it is ready. *)
Definition steady (c : Connection) : Prop :=
  client c <> None
  /\ onConnect c = None
  /\ (ready c = true -> buffered c = []).

(** A method that returns normally on a steady connection, leaves it steady
    and hands exactly [texts] to the stream. *)
Definition emits {A} (texts : list string) (m : M A) : Prop :=
  forall c,
    steady c ->
    steady (snd (m c))
    /\ stream (snd (m c)) = (stream c ++ texts)%list
    /\ exists a, fst (m c) = Ok a.

(** [this.client] holds a socket. *)
Definition has_socket (c : Connection) : Prop := client c <> None.

(** Connect attempts made on the socket handle, and whether it was
    destroyed. *)
Definition attempts (c : Connection) : option (nat * bool) :=
  option_map (fun sk => (sk_connects sk, sk_destroyed sk)) (client c).

Definition is_connect (e : event) : bool :=
  match e with
  | SocketConnect => true
  | _ => false
  end.

(** Events of the transport alone: a close of the socket, a reconnect timer. *)
Definition transport (e : event) : bool :=
  match e with
  | SocketClose | TimerFires => true
  | _ => false
  end.

(** ** Vocabulary of the order of commands *)

(** A set whose key fails one of the two checks. *)
Definition refused (cl : call) : bool :=
  match cl with
  | CallSet k _ _ => negb (is_string k && length_below k 250)
  | _ => false
  end.

(** The command a call issues, as the key and the kind of the deferred it
    creates: none for a refused set and for disconnect. *)
Definition issue_of (cl : call) : list (jsval * command) :=
  match cl with
  | CallSet k _ _ =>
      if is_string k && length_below k 250 then [(k, CmdSet)] else []
  | CallGet k => [(k, CmdGet)]
  | CallDelete k => [(k, CmdDelete)]
  | CallAutodiscovery => [(JStr "autodiscovery", CmdAutodiscovery)]
  | CallDisconnect => []
  end.

(** The commands an [onConnect] callback issues: it runs its calls in order
    and is left by the exception of the first refused set. *)
Fixpoint callback_issues (cls : list call) : list (jsval * command) :=
  match cls with
  | [] => []
  | cl :: rest =>
      if refused cl then [] else (issue_of cl ++ callback_issues rest)%list
  end.

(** The commands issued during one event: by the call of the application,
    or by the callback that the ['connect'] listener runs. *)
Definition issued_by (callback : option (list call)) (e : event)
    : list (jsval * command) :=
  match e with
  | Call cl => issue_of cl
  | SocketConnect =>
      match callback with
      | Some cls => callback_issues cls
      | None => []
      end
  | _ => []
  end.

(** The commands issued over a run, in issue order. *)
Definition issued (callback : option (list call)) (evs : list event)
    : list (jsval * command) :=
  flat_map (issued_by callback) evs.

(** The deferreds of a list of commands, numbered from [n] on. *)
Fixpoint numbered (n : nat) (cmds : list (jsval * command)) : list deferred :=
  match cmds with
  | [] => []
  | (k, cm) :: rest => mkDeferred n k cm :: numbered (S n) rest
  end.

(** The connection after the commands [cmds] were issued on it: it has its
    socket and its callback, and the deferreds settled so far, in the order
    they were settled, followed by the queue, are the deferreds of [cmds]. *)
Definition tracked (callback : option (list call))
    (cmds : list (jsval * command)) (c : Connection) : Prop :=
  has_socket c
  /\ onConnect c = callback
  /\ (map fst (settled c) ++ queue c)%list = numbered 0 cmds
  /\ next_id c = length cmds.

(** ** Vocabulary of the exact command text *)

(** Integers that a JavaScript number holds exactly and prints in plain
    decimal digits; [dec] is the text of these. *)
Definition safe_integer (n : Z) : bool := (Z.abs n <? 2 ^ 53)%Z.

(** Keys whose ['%s'] text is [fmt_s]: strings, undefined, null, booleans
    and safe integers; not arrays, whose text depends on the runtime. *)
Definition exact_key (k : jsval) : bool :=
  match k with
  | JNum n => safe_integer n
  | JArr _ => false
  | _ => true
  end.

Definition exact_ttl (ttl : option Z) : bool :=
  match ttl with
  | Some n => safe_integer n
  | None => true
  end.

(** Calls whose text [wire] spells as the code does. *)
Definition exact_call (cl : call) : bool :=
  match cl with
  | CallSet k _ ttl => exact_key k && exact_ttl ttl
  | CallGet k => exact_key k
  | CallDelete k => exact_key k
  | CallAutodiscovery => true
  | CallDisconnect => true
  end.

Definition exact_event (e : event) : bool :=
  match e with
  | Call cl => exact_call cl
  | _ => true
  end.

(** * Properties *)

(** ** Lines and their classes *)

Ltac run_method :=
  unfold read, write, flushQueue, peek, shift, resolve, reject, settle, key_of,
    buffer_push, client_write, on_client, defer, queue_push, assert,
    bind, ret, throw, this, assign, completed, error_of; simpl.

Lemma eqb_false_of (a b : string) : a <> b -> (a =? b) = false.
Proof. intro H. apply String.eqb_neq. exact H. Qed.

Lemma classify_error line : substr0 5 line = "ERROR" -> classify line = IsError.
Proof. intro H. unfold classify. rewrite H. reflexivity. Qed.

Lemma classify_end line : substr0 3 line = "END" -> classify line = IsEnd.
Proof.
  unfold classify, substr0.
  destruct line as [|a [|b [|c l]]]; simpl; try discriminate.
  intro H. injection H as -> -> ->. destruct l; reflexivity.
Qed.

Lemma classify_value line : substr0 5 line = "VALUE" -> classify line = IsValue.
Proof.
  unfold classify, substr0.
  destruct line as [|a [|b [|c [|d [|e l]]]]]; simpl; try discriminate.
  intro H. injection H as -> -> -> -> ->. destruct l; reflexivity.
Qed.

Lemma classify_empty : classify "" = IsEmpty.
Proof. reflexivity. Qed.

(** What [read] does on each class of line when a command is pending. *)
Lemma read_pending c d rest line :
  queue c = d :: rest ->
  read line c =
    (Ok tt,
     match classify line with
     | IsError => completed d (Rejected (error_of line d)) rest c
     | IsEnd => completed d (Resolved (data c)) rest c
     | IsStoredDeleted | IsNotFound => completed d (Resolved (JStr line)) rest c
     | IsData => set_data (JStr line) c
     | IsValue | IsEmpty => c
     end).
Proof.
  intro Hq. unfold classify. destruct c; simpl in Hq; subst.
  run_method.
  destruct (substr0 5 line =? "ERROR"); [reflexivity|].
  destruct (substr0 5 line =? "VALUE"); [reflexivity|].
  destruct (substr0 3 line =? "END"); [reflexivity|].
  destruct ((substr0 6 line =? "STORED") || (substr0 7 line =? "DELETED"));
    [reflexivity|].
  destruct (substr0 9 line =? "NOT_FOUND"); [reflexivity|].
  destruct (negb (line =? "")); reflexivity.
Qed.

(** And when none is: [ERROR] is ignored, the other terminal lines throw on
    the [undefined] that [peek] returned, with nothing assigned. *)
Lemma read_idle c line :
  queue c = [] ->
  read line c =
    match classify line with
    | IsError | IsValue | IsEmpty => (Ok tt, c)
    | IsEnd | IsStoredDeleted | IsNotFound => (Throw (TypeError "resolve"), c)
    | IsData => (Ok tt, set_data (JStr line) c)
    end.
Proof.
  intro Hq. unfold classify. destruct c; simpl in Hq; subst.
  run_method.
  destruct (substr0 5 line =? "ERROR"); [reflexivity|].
  destruct (substr0 5 line =? "VALUE"); [reflexivity|].
  destruct (substr0 3 line =? "END"); [reflexivity|].
  destruct ((substr0 6 line =? "STORED") || (substr0 7 line =? "DELETED"));
    [reflexivity|].
  destruct (substr0 9 line =? "NOT_FOUND"); [reflexivity|].
  destruct (negb (line =? "")); reflexivity.
Qed.

(** ** Methods that leave the correlation state alone *)

Lemma frames_ret {A} (a : A) : frames (ret a).
Proof. intro c. reflexivity. Qed.

Lemma frames_throw {A} (e : jserror) : frames (@throw A e).
Proof. intro c. reflexivity. Qed.

Lemma frames_this : frames this.
Proof. intro c. reflexivity. Qed.

Lemma frames_bind {A B} (m : M A) (k : A -> M B) :
  frames m -> (forall a, frames (k a)) -> frames (bind m k).
Proof.
  intros Hm Hk c. unfold bind. specialize (Hm c).
  destruct (m c) as [[a|e] c1]; simpl in *.
  - rewrite (Hk a c1). exact Hm.
  - exact Hm.
Qed.

Lemma frames_assign (f : Connection -> Connection) :
  (forall c, correlation (f c) = correlation c) -> frames (assign f).
Proof. intros H c. apply H. Qed.

Lemma frames_on_client prop f : frames (on_client prop f).
Proof. intro c. unfold on_client. destruct (client c); reflexivity. Qed.

Create HintDb frame_db.

Ltac frame :=
  repeat first
    [ solve [auto with frame_db nocore]
    | apply frames_ret | apply frames_throw | apply frames_this
    | apply frames_on_client
    | apply frames_assign; intros []; reflexivity
    | apply frames_bind; [| intro]
    | match goal with
      | |- frames (if ?b then _ else _) => destruct b
      | |- frames (match ?x with _ => _ end) => destruct x
      end ].

Lemma frames_drain chunks : frames (drain chunks).
Proof.
  induction chunks as [|chunk rest IH]; simpl.
  - frame.
  - unfold client_write. frame.
Qed.
#[local] Hint Resolve frames_drain : frame_db.

Lemma frames_flushQueue : frames flushQueue.
Proof.
  unfold flushQueue. apply frames_bind; [frame|]. intro c.
  destruct (writeBuffer c) as [[|chunk rest]|]; frame.
Qed.
#[local] Hint Resolve frames_flushQueue : frame_db.

Lemma frames_write str : frames (write str).
Proof. unfold write, buffer_push, client_write. frame. Qed.
#[local] Hint Resolve frames_write : frame_db.

Lemma frames_connect : frames connect.
Proof. unfold connect. frame. Qed.
#[local] Hint Resolve frames_connect : frame_db.

Lemma frames_disconnect : frames disconnect.
Proof. unfold disconnect. frame. Qed.
#[local] Hint Resolve frames_disconnect : frame_db.

Lemma frames_on_close : frames on_close.
Proof. unfold on_close. frame. Qed.
#[local] Hint Resolve frames_on_close : frame_db.

Lemma frames_on_timer : frames on_timer.
Proof. unfold on_timer. frame. Qed.
#[local] Hint Resolve frames_on_timer : frame_db.

(** ** The invariant of the correlation state *)

Lemma sound_correlation c c' :
  correlation c' = correlation c -> sound c -> sound c'.
Proof.
  unfold correlation, sound, fifo, data_wf. intros H.
  injection H as Hq Hs Hn Hd. rewrite Hq, Hs, Hn, Hd. trivial.
Qed.

Lemma keeps_frames {A} (m : M A) : frames m -> keeps m.
Proof. intros H c Hc. exact (sound_correlation _ _ (H c) Hc). Qed.

Lemma keeps_bind {A B} (m : M A) (k : A -> M B) :
  keeps m -> (forall a, keeps (k a)) -> keeps (bind m k).
Proof.
  intros Hm Hk c Hc. unfold bind. specialize (Hm c Hc).
  destruct (m c) as [[a|e] c1]; simpl in *.
  - apply Hk. exact Hm.
  - exact Hm.
Qed.

Lemma sound_completed d s rest c :
  queue c = d :: rest -> sound c -> sound (completed d s rest c).
Proof.
  intros Hq [Hf Hd]. split; [|exact I].
  unfold fifo in *. destruct c; simpl in *. subst.
  rewrite map_app, <- app_assoc. exact Hf.
Qed.

Lemma keeps_read line : keeps (read line).
Proof.
  intros c Hc. destruct (queue c) as [|d rest] eqn:Hq.
  - rewrite (read_idle c line Hq).
    destruct (classify line) eqn:Hl; simpl; trivial.
    destruct Hc as [Hf _]. split.
    + destruct c; exact Hf.
    + unfold data_wf. destruct c; simpl. exact Hl.
  - rewrite (read_pending c d rest line Hq). simpl.
    destruct (classify line) eqn:Hl; trivial;
      try (apply sound_completed; assumption).
    destruct Hc as [Hf _]. split.
    + destruct c; exact Hf.
    + unfold data_wf. destruct c; simpl. exact Hl.
Qed.

(** Creating a deferred and pushing it on the queue, then anything that
    leaves the correlation state alone. *)
Lemma keeps_issue {A} k cm (rest : deferred -> M A) :
  (forall d, frames (rest d)) ->
  keeps (deferred <- defer k cm ;; queue_push deferred ;; rest deferred).
Proof.
  intros Hrest c [Hf Hd]. unfold bind, defer, queue_push, assign.
  apply (sound_correlation _ _ (Hrest _ _)).
  split.
  - unfold fifo in *. destruct c; cbn -[seq] in *.
    rewrite map_app, app_assoc, Hf, seq_S. reflexivity.
  - destruct c; exact Hd.
Qed.

Lemma keeps_assert cond msg {A} (m : M A) :
  keeps m -> keeps (assert cond msg ;; m).
Proof.
  intros Hm c Hc. unfold bind, assert. destruct cond; simpl.
  - apply Hm. exact Hc.
  - exact Hc.
Qed.

Lemma keeps_set k val ttl : keeps (set k val ttl).
Proof.
  unfold set. do 2 apply keeps_assert. apply keeps_issue. intro d. frame.
Qed.

Lemma keeps_get k : keeps (get k).
Proof. unfold get. apply keeps_issue. intro d. frame. Qed.

Lemma keeps_delete k : keeps (delete k).
Proof. unfold delete. apply keeps_issue. intro d. frame. Qed.

Lemma keeps_autodiscovery : keeps autodiscovery.
Proof. unfold autodiscovery. apply keeps_issue. intro d. frame. Qed.

Lemma keeps_do_call cl : keeps (do_call cl).
Proof.
  destruct cl; simpl;
    try (apply keeps_bind; [| intro; apply keeps_frames, frames_ret]).
  - apply keeps_set.
  - apply keeps_get.
  - apply keeps_delete.
  - apply keeps_autodiscovery.
  - apply keeps_frames, frames_disconnect.
Qed.

Lemma keeps_do_calls cls : keeps (do_calls cls).
Proof.
  induction cls as [|cl rest IH]; simpl.
  - apply keeps_frames, frames_ret.
  - apply keeps_bind; [apply keeps_do_call | intro; exact IH].
Qed.

Lemma keeps_on_connect : keeps on_connect.
Proof.
  unfold on_connect.
  apply keeps_bind; [apply keeps_frames; frame | intro].
  apply keeps_bind; [apply keeps_frames; frame | intro].
  apply keeps_bind; [apply keeps_frames; frame | intro c].
  destruct (onConnect c).
  - apply keeps_bind; [apply keeps_do_calls | intro].
    apply keeps_frames, frames_flushQueue.
  - apply keeps_frames, frames_flushQueue.
Qed.

Lemma keeps_handle e : keeps (handle e).
Proof.
  destruct e; simpl.
  - apply keeps_do_call.
  - apply keeps_read.
  - apply keeps_on_connect.
  - apply keeps_frames. frame.
  - apply keeps_frames. frame.
Qed.

Lemma sound_run evs : forall c, sound c -> sound (run evs c).
Proof.
  induction evs as [|e evs IH]; intros c Hc; simpl.
  - exact Hc.
  - apply IH. apply keeps_handle. exact Hc.
Qed.

Lemma sound_new opts : sound (new_Connection opts).
Proof. split; [reflexivity | exact I]. Qed.

(** Every state a connection can reach satisfies the invariant. *)
Lemma sound_reachable opts evs : sound (run evs (new_Connection opts)).
Proof. apply sound_run, sound_new. Qed.

Lemma correlation_issue {A} k cm (rest : deferred -> M A) c :
  (forall d, frames (rest d)) ->
  correlation (snd ((deferred <- defer k cm ;; queue_push deferred ;;
                     rest deferred) c))
  = ((queue c ++ [mkDeferred (next_id c) k cm])%list, settled c,
     S (next_id c), data c).
Proof.
  intros Hrest. unfold bind, defer, queue_push, assign.
  rewrite (Hrest _ _). destruct c; reflexivity.
Qed.

(** Each command takes the next number and joins the queue at the tail. *)
Lemma issue_numbered {A} k cm (rest : deferred -> M A) c :
  (forall d, frames (rest d)) ->
  let c' := exec (deferred <- defer k cm ;; queue_push deferred ;;
                  rest deferred) c in
  queue c' = (queue c ++ [mkDeferred (next_id c) k cm])%list
  /\ next_id c' = S (next_id c)
  /\ settled c' = settled c.
Proof.
  intros Hrest c'. subst c'. unfold exec.
  pose proof (correlation_issue k cm rest c Hrest) as H.
  unfold correlation in H at 1. injection H as Hq Hs Hn _. auto.
Qed.

Lemma get_numbered k c :
  queue (exec (get k) c) = (queue c ++ [mkDeferred (next_id c) k CmdGet])%list
  /\ next_id (exec (get k) c) = S (next_id c)
  /\ settled (exec (get k) c) = settled c.
Proof. apply (issue_numbered k CmdGet). intro d. frame. Qed.

Lemma delete_numbered k c :
  queue (exec (delete k) c)
  = (queue c ++ [mkDeferred (next_id c) k CmdDelete])%list
  /\ next_id (exec (delete k) c) = S (next_id c)
  /\ settled (exec (delete k) c) = settled c.
Proof. apply (issue_numbered k CmdDelete). intro d. frame. Qed.

(** ** Settlement order *)

Lemma app_seq_prefix (l1 l2 : list nat) :
  forall s n, (l1 ++ l2)%list = seq s n -> l1 = seq s (length l1).
Proof.
  induction l1 as [|x l1 IH]; intros s n H; simpl in *.
  - reflexivity.
  - destruct n as [|n]; simpl in H; [discriminate|].
    injection H as -> H. f_equal. exact (IH _ _ H).
Qed.

Lemma outcomes_ids c :
  map fst (outcomes c) = map (fun p => d_id (fst p)) (settled c).
Proof. unfold outcomes. rewrite map_map. reflexivity. Qed.

Lemma length_outcomes c : length (outcomes c) = length (settled c).
Proof. unfold outcomes. apply length_map. Qed.

Lemma sound_outcomes c :
  sound c -> map fst (outcomes c) = seq 0 (length (settled c)).
Proof.
  intros [Hf _]. rewrite outcomes_ids.
  pose proof (app_seq_prefix _ _ _ _ Hf) as H.
  rewrite length_map in H. exact H.
Qed.

(** ** ERROR lines *)

(** C9: on a line starting with ERROR, when commands are pending exactly the
    head is shifted off the queue and rejected with the error that carries
    the raw line and the head's key, [this.data] becomes null, and the other
    pending commands, the earlier settlements and every other field stay as
    they were; the promise of the head rejects with that same error.  When
    no command is pending the line changes nothing and settles nothing. *)
Theorem error_line_rejects_the_head_only :
  forall c line,
    substr0 5 line = "ERROR" ->
    match queue c with
    | d :: rest =>
        let e := Error ("Memcache returned an error: " ++ line ++ CRLF
                          ++ "For key " ++ fmt_s (key d)) in
        read line c
          = (Ok tt,
             set_data JNull
               (set_settled (settled c ++ [(d, Rejected e)])%list
                  (set_queue rest c)))
        /\ queue (exec (read line) c) = rest
        /\ data (exec (read line) c) = JNull
        /\ outcomes (exec (read line) c)
             = (outcomes c ++ [(d_id d, Rejected e)])%list
    | [] => read line c = (Ok tt, c)
    end.
Proof.
  intros c line H. pose proof (classify_error line H) as Hc.
  destruct (queue c) as [|d rest] eqn:Hq.
  - rewrite (read_idle c line Hq), Hc. reflexivity.
  - cbv zeta. unfold exec.
    rewrite (read_pending c d rest line Hq), Hc.
    repeat split.
    unfold outcomes, completed. destruct c; simpl.
    rewrite map_app. reflexivity.
Qed.

Lemma error_line_rejects_the_head_only_witness :
  let c := run [Call (CallGet (JStr "a")); Call (CallDelete (JStr "b"))]
               (new_Connection default_options) in
  substr0 5 "ERROR" = "ERROR" /\
  queue (exec (read "ERROR") c) = [mkDeferred 1 (JStr "b") CmdDelete] /\
  read "ERROR" (exec (read "ERROR") (exec (read "ERROR") c))
    = (Ok tt, exec (read "ERROR") (exec (read "ERROR") c)).
Proof.
  intro c. split; [reflexivity|]. split.
  - exact (proj1 (proj2 (error_line_rejects_the_head_only c "ERROR" eq_refl))).
  - exact (error_line_rejects_the_head_only
             (exec (read "ERROR") (exec (read "ERROR") c)) "ERROR" eq_refl).
Defined.

(** ** Completion of a pending command by a terminal line *)

Lemma read_terminal c d rest line :
  queue c = d :: rest -> terminal line = true ->
  read line c = (Ok tt, completed d (verdict d (data c) line) rest c).
Proof.
  intros Hq Ht. rewrite (read_pending c d rest line Hq).
  unfold terminal, verdict in *.
  destruct (classify line); try discriminate; reflexivity.
Qed.

Lemma outcomes_completed d s rest c :
  outcomes (completed d s rest c)
  = (outcomes c ++ [(d_id d, future d s)])%list.
Proof.
  unfold outcomes, completed. destruct c; simpl.
  rewrite map_app. reflexivity.
Qed.

Lemma outcomes_terminal c d rest line :
  queue c = d :: rest -> terminal line = true ->
  outcomes (exec (read line) c)
  = (outcomes c ++ [(d_id d, future d (verdict d (data c) line))])%list.
Proof.
  intros Hq Ht. unfold exec. rewrite (read_terminal c d rest line Hq Ht).
  apply outcomes_completed.
Qed.

Lemma terminal_end line : substr0 3 line = "END" -> terminal line = true.
Proof. intro H. unfold terminal. rewrite (classify_end line H). reflexivity. Qed.

Lemma terminal_error line : substr0 5 line = "ERROR" -> terminal line = true.
Proof. intro H. unfold terminal. rewrite (classify_error line H). reflexivity. Qed.

(** ** get *)

Lemma get_end_value c d rest line v :
  queue c = d :: rest -> cmd d = CmdGet -> substr0 3 line = "END" ->
  data c = JStr v -> v <> "" ->
  outcomes (exec (read line) c)
  = (outcomes c ++ [(d_id d, Resolved (JStr v))])%list.
Proof.
  intros Hq Hg He Hd Hne.
  rewrite (outcomes_terminal c d rest line Hq (terminal_end line He)).
  unfold verdict. rewrite (classify_end line He), Hd. unfold future.
  rewrite Hg. unfold then_get. simpl. rewrite (eqb_false_of _ _ Hne).
  reflexivity.
Qed.

Lemma get_end_absent c d rest line :
  queue c = d :: rest -> cmd d = CmdGet -> substr0 3 line = "END" ->
  data c = JNull \/ data c = JUndefined ->
  outcomes (exec (read line) c)
  = (outcomes c ++ [(d_id d, Resolved JNull)])%list.
Proof.
  intros Hq Hg He Hd.
  rewrite (outcomes_terminal c d rest line Hq (terminal_end line He)).
  unfold verdict. rewrite (classify_end line He). unfold future. rewrite Hg.
  destruct Hd as [-> | ->]; reflexivity.
Qed.

(** C7: a get whose response is ended by an END line.  If [this.data] then
    holds an accumulated data line, the promise resolves to that line as
    text; if it holds nothing (null, or undefined on a fresh connection), the
    promise resolves to null and is not rejected.  In both cases the command
    leaves the queue and [this.data] is cleared.  In particular a data line
    read just before END is what the promise resolves to. *)
Theorem get_resolves_to_value_or_null :
  forall c d rest line,
    queue c = d :: rest ->
    cmd d = CmdGet ->
    substr0 3 line = "END" ->
    (forall v, data c = JStr v -> v <> "" ->
       outcomes (exec (read line) c)
       = (outcomes c ++ [(d_id d, Resolved (JStr v))])%list)
    /\ (data c = JNull \/ data c = JUndefined ->
        outcomes (exec (read line) c)
        = (outcomes c ++ [(d_id d, Resolved JNull)])%list)
    /\ (forall v, classify v = IsData ->
        outcomes (exec (read line) (exec (read v) c))
        = (outcomes c ++ [(d_id d, Resolved (JStr v))])%list)
    /\ queue (exec (read line) c) = rest
    /\ data (exec (read line) c) = JNull.
Proof.
  intros c d rest line Hq Hg He.
  pose proof (terminal_end line He) as Ht.
  split; [|split; [|split; [|split]]].
  - intros v Hd Hne. exact (get_end_value c d rest line v Hq Hg He Hd Hne).
  - exact (get_end_absent c d rest line Hq Hg He).
  - intros v Hdata.
    assert (Hr : exec (read v) c = set_data (JStr v) c).
    { unfold exec. rewrite (read_pending c d rest v Hq), Hdata. reflexivity. }
    rewrite Hr.
    rewrite (get_end_value (set_data (JStr v) c) d rest line v).
    + destruct c; reflexivity.
    + destruct c; exact Hq.
    + exact Hg.
    + exact He.
    + destruct c; reflexivity.
    + intros ->. discriminate Hdata.
  - unfold exec. rewrite (read_terminal c d rest line Hq Ht).
    destruct c; reflexivity.
  - unfold exec. rewrite (read_terminal c d rest line Hq Ht).
    destruct c; reflexivity.
Qed.

Lemma get_resolves_to_value_or_null_witness :
  let c := run [Call (CallGet (JStr "k")); Call (CallGet (JStr "missing"))]
               (new_Connection default_options) in
  substr0 3 "END" = "END" /\
  outcomes (run [Line "VALUE k 0 1"; Line "v"; Line "END"; Line "END"] c)
  = [(0, Resolved (JStr "v")); (1, Resolved JNull)].
Proof.
  intro c. split; [reflexivity|].
  pose (c1 := run [Line "VALUE k 0 1"; Line "v"] c).
  pose (c2 := exec (read "END") c1).
  change (outcomes (exec (read "END") c2)
          = [(0, Resolved (JStr "v")); (1, Resolved JNull)]).
  rewrite (proj1 (proj2 (get_resolves_to_value_or_null c2
                           (mkDeferred 1 (JStr "missing") CmdGet) [] "END"
                           eq_refl eq_refl eq_refl)) (or_introl eq_refl)).
  unfold c2.
  rewrite (proj1 (get_resolves_to_value_or_null c1
                    (mkDeferred 0 (JStr "k") CmdGet)
                    [mkDeferred 1 (JStr "missing") CmdGet] "END"
                    eq_refl eq_refl eq_refl) "v" eq_refl
                 ltac:(discriminate)).
  reflexivity.
Defined.

(** C10: a get of a key that holds the empty string.  The server answers
    with a VALUE header, an empty data line and END; [read] skips the header
    and the empty line, so nothing is accumulated and the promise resolves to
    null.  The connection ends in the very state that a bare END, the answer
    for a missing key, leaves it in. *)
Theorem get_of_empty_value_resolves_to_null :
  forall c d rest header line,
    queue c = d :: rest ->
    cmd d = CmdGet ->
    data c = JNull \/ data c = JUndefined ->
    substr0 5 header = "VALUE" ->
    substr0 3 line = "END" ->
    run [Line header; Line ""] c = c
    /\ outcomes (run [Line header; Line ""; Line line] c)
       = (outcomes c ++ [(d_id d, Resolved JNull)])%list
    /\ run [Line header; Line ""; Line line] c = run [Line line] c.
Proof.
  intros c d rest header line Hq Hg Hd Hh He.
  assert (H1 : exec (read header) c = c).
  { unfold exec. rewrite (read_pending c d rest header Hq).
    rewrite (classify_value header Hh). reflexivity. }
  assert (H2 : exec (read "") c = c).
  { unfold exec. rewrite (read_pending c d rest "" Hq). reflexivity. }
  unfold run. simpl. rewrite H1, H2. split; [reflexivity|].
  split; [|reflexivity].
  exact (get_end_absent c d rest line Hq Hg He Hd).
Qed.

Lemma get_of_empty_value_resolves_to_null_witness :
  let c := run [Call (CallGet (JStr "k")); SocketConnect]
               (new_Connection default_options) in
  (data c = JNull \/ data c = JUndefined) /\
  outcomes (run [Line "VALUE k 0 0"; Line ""; Line "END"] c)
  = [(0, Resolved JNull)].
Proof.
  intro c. split; [right; reflexivity|].
  exact (proj1 (proj2 (get_of_empty_value_resolves_to_null c
                         (mkDeferred 0 (JStr "k") CmdGet) [] "VALUE k 0 0" "END"
                         eq_refl eq_refl (or_intror eq_refl) eq_refl eq_refl))).
Defined.

(** ** set *)

Lemma data_wf_not_literal c v (lit : string) :
  data_wf c -> data c = JStr v -> classify lit <> IsData -> v <> lit.
Proof.
  unfold data_wf. intros Hw Hd Hlit ->. rewrite Hd in Hw. contradiction.
Qed.

(** The claim of C6 fails on terminal lines that [read] does not hand to
    the callback of set.  On a line starting with ERROR [read] rejects the
    deferred itself, with the server error.  On a line starting with END it
    resolves the deferred with [this.data], so the mismatch error names the
    accumulated value, here a SERVER_ERROR reply that [read] kept as data,
    and not the line END. *)
Lemma set_completed_by_other_line_counterexample :
  let c := run [Call (CallSet (JStr "k") "v" None); SocketConnect]
               (new_Connection default_options) in
  let reply := "SERVER_ERROR out of memory storing object" in
  queue c = [mkDeferred 0 (JStr "k") CmdSet]
  /\ terminal "ERROR" = true
  /\ outcomes (exec (read "ERROR") c)
     = [(0, Rejected (Error ("Memcache returned an error: ERROR" ++ CRLF
                               ++ "For key k")))]
  /\ outcomes (exec (read "ERROR") c) <> [(0, Rejected (mismatch_of "ERROR"))]
  /\ terminal "END" = true
  /\ outcomes (run [Line reply; Line "END"] c)
     = [(0, Rejected (mismatch_of reply))]
  /\ outcomes (run [Line reply; Line "END"] c)
     <> [(0, Rejected (mismatch_of "END"))].
Proof.
  intros c reply. repeat split; try reflexivity; discriminate.
Qed.

(** C6, amended: a set completed by a terminal line, where a line starting
    with END finds an accumulated value in [this.data].  The promise
    resolves exactly when the line equals STORED and rejects on every other
    such line.  The rejection is the mismatch error naming the line when the
    line starts with STORED, DELETED or NOT_FOUND, the server error carrying
    the line and the key when it starts with ERROR, and the mismatch error
    naming the accumulated value, not the line, when it starts with END. *)
Theorem set_resolves_iff_STORED :
  forall c d rest line,
    queue c = d :: rest ->
    cmd d = CmdSet ->
    data_wf c ->
    terminal line = true ->
    (classify line = IsEnd -> exists v, data c = JStr v) ->
    exists s,
      outcomes (exec (read line) c) = (outcomes c ++ [(d_id d, s)])%list
      /\ (line = "STORED" -> s = Resolved JUndefined)
      /\ (line <> "STORED" -> exists e, s = Rejected e)
      /\ (classify line = IsStoredDeleted \/ classify line = IsNotFound ->
          line <> "STORED" -> s = Rejected (mismatch_of line))
      /\ (classify line = IsError ->
          s = Rejected (Error ("Memcache returned an error: " ++ line ++ CRLF
                                 ++ "For key " ++ fmt_s (key d))))
      /\ (classify line = IsEnd ->
          forall v, data c = JStr v -> s = Rejected (mismatch_of v)).
Proof.
  intros c d rest line Hq Hs Hw Ht Hacc.
  exists (future d (verdict d (data c) line)).
  split; [exact (outcomes_terminal c d rest line Hq Ht)|].
  unfold future, verdict, terminal in *. rewrite Hs.
  destruct (classify line) eqn:Hc; try discriminate.
  - (* ERROR *)
    repeat split; try discriminate.
    + intros ->. discriminate Hc.
    + intros _. eexists. reflexivity.
    + intros [H|H]; discriminate H.
  - (* END *)
    destruct (Hacc eq_refl) as [v Hv].
    assert (Hend : then_set (data c) = Rejected (mismatch_of v)).
    { rewrite Hv. unfold then_set. simpl.
      assert (Hne : v <> "STORED")
        by (apply (data_wf_not_literal c v "STORED" Hw Hv); discriminate).
      rewrite (eqb_false_of _ _ Hne). reflexivity. }
    repeat split; try discriminate.
    + intros ->. discriminate Hc.
    + intros _. eexists. exact Hend.
    + intros [H|H]; discriminate H.
    + intros _ v' Hv'. rewrite Hv in Hv'. injection Hv' as <-. exact Hend.
  - (* STORED or DELETED *)
    unfold then_set. simpl.
    destruct (line =? "STORED") eqn:He; simpl.
    + apply String.eqb_eq in He.
      repeat split; intros; try reflexivity; try contradiction;
        discriminate.
    + apply String.eqb_neq in He.
      repeat split; intros; try reflexivity; try contradiction;
        try discriminate.
      eexists. reflexivity.
  - (* NOT_FOUND *)
    unfold then_set. simpl.
    assert (He : line <> "STORED") by (intros ->; discriminate Hc).
    rewrite (eqb_false_of _ _ He). simpl.
    repeat split; intros; try reflexivity; try contradiction;
      try discriminate.
    eexists. reflexivity.
Qed.

Lemma set_resolves_iff_STORED_witness :
  let c := run [Call (CallSet (JStr "k") "v" None); SocketConnect]
               (new_Connection default_options) in
  let c' := exec (read "SERVER_ERROR out of memory storing object") c in
  data_wf c /\ terminal "STORED" = true
  /\ (exists s,
        outcomes (exec (read "STORED") c) = [(0, s)] /\ s = Resolved JUndefined)
  /\ data_wf c' /\ terminal "END" = true
  /\ (exists s,
        outcomes (exec (read "END") c') = [(0, s)]
        /\ s = Rejected (mismatch_of "SERVER_ERROR out of memory storing object")).
Proof.
  intros c c'. split; [exact I|]. split; [reflexivity|]. split.
  - destruct (set_resolves_iff_STORED c (mkDeferred 0 (JStr "k") CmdSet) []
                "STORED" eq_refl eq_refl I eq_refl
                ltac:(intro H; discriminate H)) as [s [Ho [Hs _]]].
    exists s. split; [exact Ho | exact (Hs eq_refl)].
  - split; [reflexivity|]. split; [reflexivity|].
    destruct (set_resolves_iff_STORED c' (mkDeferred 0 (JStr "k") CmdSet) []
                "END" eq_refl eq_refl eq_refl eq_refl
                ltac:(intros _; eexists; reflexivity))
      as [s [Ho [_ [_ [_ [_ He]]]]]].
    exists s. split; [exact Ho | exact (He eq_refl _ eq_refl)].
Defined.

(** ** delete *)

(** The claim of C8 fails on a line starting with ERROR, which is a terminal
    line too: the promise of the pending delete is rejected, it does not
    resolve to false. *)
Lemma delete_completed_by_ERROR_counterexample :
  let c := run [Call (CallDelete (JStr "k")); SocketConnect]
               (new_Connection default_options) in
  queue c = [mkDeferred 0 (JStr "k") CmdDelete]
  /\ terminal "ERROR" = true
  /\ "ERROR" <> "DELETED"
  /\ outcomes (exec (read "ERROR") c)
     = [(0, Rejected (Error ("Memcache returned an error: ERROR" ++ CRLF
                               ++ "For key k")))]
  /\ outcomes (exec (read "ERROR") c) <> [(0, Resolved (JBool false))].
Proof.
  intro c. repeat split; try reflexivity; discriminate.
Qed.

(** C8, amended: a delete completed by a terminal line that does not start
    with ERROR.  The promise resolves to true when the line is DELETED and to
    false on every other such line, NOT_FOUND included; it is never rejected
    there.  (On a line starting with ERROR the promise is rejected with the
    server error, as for every command.) *)
Theorem delete_resolves_to_boolean :
  forall c d rest line,
    queue c = d :: rest ->
    cmd d = CmdDelete ->
    data_wf c ->
    terminal line = true ->
    substr0 5 line <> "ERROR" ->
    outcomes (exec (read line) c)
    = (outcomes c ++ [(d_id d, Resolved (JBool (line =? "DELETED")))])%list
    /\ (line = "DELETED" ->
        outcomes (exec (read line) c)
        = (outcomes c ++ [(d_id d, Resolved (JBool true))])%list)
    /\ (substr0 9 line = "NOT_FOUND" ->
        outcomes (exec (read line) c)
        = (outcomes c ++ [(d_id d, Resolved (JBool false))])%list).
Proof.
  intros c d rest line Hq Hd Hw Ht Hne.
  assert (Hmain : outcomes (exec (read line) c)
                  = (outcomes c
                     ++ [(d_id d, Resolved (JBool (line =? "DELETED")))])%list).
  { rewrite (outcomes_terminal c d rest line Hq Ht). do 3 f_equal.
    unfold future, verdict, terminal in *. rewrite Hd.
    destruct (classify line) eqn:Hc; try discriminate.
    - exfalso. apply Hne. unfold classify in Hc.
      destruct (substr0 5 line =? "ERROR") eqn:He.
      + apply String.eqb_eq. exact He.
      + repeat match type of Hc with
               | (if ?b then _ else _) = _ => destruct b
               end; discriminate Hc.
    - assert (Hl : line <> "DELETED") by (intros ->; discriminate Hc).
      rewrite (eqb_false_of _ _ Hl).
      unfold data_wf in Hw. unfold then_delete.
      destruct (data c) as [| | | |v|]; try reflexivity.
      assert (Hv : v <> "DELETED") by (intros ->; discriminate Hw).
      simpl. rewrite (eqb_false_of _ _ Hv). reflexivity.
    - unfold then_delete. simpl. destruct (line =? "DELETED"); reflexivity.
    - unfold then_delete. simpl. destruct (line =? "DELETED"); reflexivity. }
  split; [exact Hmain|]. split.
  - intros ->. exact Hmain.
  - intros Hnf. rewrite Hmain.
    assert (Hl : line <> "DELETED") by (intros ->; discriminate Hnf).
    rewrite (eqb_false_of _ _ Hl). reflexivity.
Qed.

Lemma delete_resolves_to_boolean_witness :
  let c := run [Call (CallDelete (JStr "a")); Call (CallDelete (JStr "b"));
                SocketConnect]
               (new_Connection default_options) in
  data_wf c /\ terminal "DELETED" = true /\ substr0 5 "DELETED" <> "ERROR" /\
  outcomes (exec (read "NOT_FOUND") (exec (read "DELETED") c))
  = [(0, Resolved (JBool true)); (1, Resolved (JBool false))].
Proof.
  intro c. split; [exact I|]. split; [reflexivity|].
  split; [discriminate|].
  rewrite (proj2 (proj2 (delete_resolves_to_boolean (exec (read "DELETED") c)
                           (mkDeferred 1 (JStr "b") CmdDelete) [] "NOT_FOUND"
                           eq_refl eq_refl I eq_refl ltac:(discriminate)))
                 eq_refl).
  rewrite (proj1 (proj2 (delete_resolves_to_boolean c
                           (mkDeferred 0 (JStr "a") CmdDelete)
                           [mkDeferred 1 (JStr "b") CmdDelete] "DELETED"
                           eq_refl eq_refl I eq_refl ltac:(discriminate)))
                 eq_refl).
  reflexivity.
Defined.

(** ** Key validation in set *)

Lemma tame_ret {A} (a : A) : tame (ret a).
Proof.
  intro c. split.
  - intro H. split; [exact H | exists a; reflexivity].
  - intros e H. discriminate H.
Qed.

Lemma tame_this : tame this.
Proof.
  intro c. split.
  - intro H. split; [exact H | exists c; reflexivity].
  - intros e H. discriminate H.
Qed.

Lemma tame_assign f :
  (forall c, client (f c) = client c) -> tame (assign f).
Proof.
  intros Hf c. split.
  - intro H. simpl. rewrite Hf. split; [exact H | exists tt; reflexivity].
  - intros e H. discriminate H.
Qed.

Lemma tame_on_client prop f : tame (on_client prop f).
Proof.
  intro c. unfold on_client. destruct (client c) as [sk|]; simpl; split.
  - intros _. split; [destruct c; discriminate | exists tt; reflexivity].
  - intros e H. discriminate H.
  - intro H. contradiction.
  - intros e H. injection H as <-. exists prop. reflexivity.
Qed.

Lemma tame_bind {A B} (m : M A) (k : A -> M B) :
  tame m -> (forall a, tame (k a)) -> tame (bind m k).
Proof.
  intros Hm Hk c. unfold bind. destruct (Hm c) as [Hm1 Hm2].
  destruct (m c) as [[a|e] c1]; simpl in *.
  - destruct (Hk a c1) as [Hk1 Hk2]. split.
    + intro H. apply Hk1. apply (Hm1 H).
    + exact Hk2.
  - split.
    + intro H. destruct (Hm1 H) as [_ [a Ha]]. discriminate Ha.
    + intros e0 H. injection H as <-. exact (Hm2 e eq_refl).
Qed.

Create HintDb tame_db.

Ltac taming :=
  repeat first
    [ solve [auto with tame_db nocore]
    | apply tame_ret | apply tame_this | apply tame_on_client
    | apply tame_assign; intros []; reflexivity
    | apply tame_bind; [| intro]
    | match goal with
      | |- tame (if ?b then _ else _) => destruct b
      | |- tame (match ?x with _ => _ end) => destruct x
      end ].

Lemma tame_drain chunks : tame (drain chunks).
Proof.
  induction chunks as [|chunk rest IH]; simpl.
  - taming.
  - unfold client_write. taming.
Qed.
#[local] Hint Resolve tame_drain : tame_db.

Lemma tame_flushQueue : tame flushQueue.
Proof.
  unfold flushQueue. apply tame_bind; [taming|]. intro c.
  destruct (writeBuffer c) as [[|chunk rest]|]; taming.
Qed.
#[local] Hint Resolve tame_flushQueue : tame_db.

Lemma tame_write str : tame (write str).
Proof. unfold write, buffer_push, client_write. taming. Qed.
#[local] Hint Resolve tame_write : tame_db.

(** A command after its checks: a deferred is created and queued, then the
    command text goes through [write]. *)
Lemma tame_issue k cm (texts : list string) :
  tame (deferred <- defer k cm ;; queue_push deferred ;;
        fold_right (fun text m => write text ;; m) (ret deferred) texts).
Proof.
  apply tame_bind.
  - intro c. split.
    + intro H. split; [destruct c; exact H | eexists; reflexivity].
    + intros e H. discriminate H.
  - intro d. apply tame_bind; [unfold queue_push; taming | intros _].
    induction texts as [|text texts IH]; simpl; taming.
Qed.

(** C5: set checks its key first.  When the key is not a string, or is a
    string of 250 characters or more, the call throws an assertion error and
    the connection is left exactly as it was: no pending command was queued,
    nothing was buffered and nothing was given to the socket.  When the key
    is a string of fewer than 250 characters no assertion error is thrown:
    the command is queued, and on a connection that has its socket the call
    returns its promise. *)
Theorem set_validates_key_before_anything_else :
  forall c k val ttl,
    ((forall s, k <> JStr s)
     \/ (exists s, k = JStr s /\ 250 <= String.length s) ->
     exists msg, set k val ttl c = (Throw (AssertionError msg), c))
    /\ (forall s, k = JStr s -> String.length s < 250 ->
        (forall msg, fst (set k val ttl c) <> Throw (AssertionError msg))
        /\ queue (exec (set k val ttl) c)
           = (queue c ++ [mkDeferred (next_id c) k CmdSet])%list
        /\ (client c <> None -> exists d, fst (set k val ttl c) = Ok d)).
Proof.
  intros c k val ttl. split.
  - intro H. unfold set, bind, assert.
    destruct k as [| | | |s|l]; simpl;
      try (eexists; reflexivity).
    assert (Hlen : 250 <= String.length s).
    { destruct H as [H | [s' [Hs H]]].
      - exfalso. exact (H s eq_refl).
      - injection Hs as <-. exact H. }
    replace (String.length s <? 250)%nat with false.
    + eexists. reflexivity.
    + symmetry. apply Nat.ltb_ge. exact Hlen.
  - intros s -> Hlen.
    pose (texts := ["set " ++ s ++ " 0 " ++ dec (ttl_or_0 ttl) ++ " "
                      ++ dec (Z.of_nat (String.length val)); val]).
    pose (rest := fun deferred : deferred =>
                    fold_right (fun text m => write text ;; m) (ret deferred)
                      texts).
    assert (Hset : set (JStr s) val ttl c
                   = (deferred <- defer (JStr s) CmdSet ;;
                      queue_push deferred ;; rest deferred) c).
    { unfold set. unfold bind at 1 2. unfold assert. simpl.
      replace (String.length s <? 250)%nat with true
        by (symmetry; apply Nat.ltb_lt; exact Hlen).
      reflexivity. }
    unfold exec. rewrite Hset.
    destruct (tame_issue (JStr s) CmdSet texts c) as [Hok Hty].
    fold rest in Hok, Hty.
    split; [|split].
    + intros msg H. destruct (Hty _ H) as [prop Hp]. discriminate Hp.
    + assert (Hf : forall d, frames (rest d)).
      { intro d. unfold rest, texts. simpl. frame. }
      pose proof (correlation_issue (JStr s) CmdSet rest c Hf) as Hc.
      unfold correlation in Hc at 1.
      injection Hc as Hq _ _ _. exact Hq.
    + intro H. exact (proj2 (Hok H)).
Qed.

Lemma set_validates_key_before_anything_else_witness :
  let c := run [SocketConnect] (new_Connection default_options) in
  (exists msg, set (JNum 7) "v" None c = (Throw (AssertionError msg), c))
  /\ String.length "k" < 250
  /\ queue (exec (set (JStr "k") "v" None) c) = [mkDeferred 0 (JStr "k") CmdSet]
  /\ exists d, fst (set (JStr "k") "v" None c) = Ok d.
Proof.
  intro c.
  pose proof (set_validates_key_before_anything_else c (JNum 7) "v" None) as H7.
  pose proof (set_validates_key_before_anything_else c (JStr "k") "v" None) as Hk.
  assert (Hlen : String.length "k" < 250) by (simpl; lia).
  split.
  - apply (proj1 H7). left. intros s Hs. discriminate Hs.
  - split; [exact Hlen|]. split.
    + exact (proj1 (proj2 (proj2 Hk "k" eq_refl Hlen))).
    + apply (proj2 (proj2 (proj2 Hk "k" eq_refl Hlen))). discriminate.
Defined.

(** ** autodiscovery *)

Lemma occurs_app ch a b : occurs ch (a ++ b) = occurs ch a || occurs ch b.
Proof.
  induction a as [|x a IH]; simpl.
  - reflexivity.
  - rewrite IH. apply orb_assoc.
Qed.

Lemma split_none sep s : occurs sep s = false -> split sep s = [s].
Proof.
  induction s as [|x s IH]; simpl; intro H.
  - reflexivity.
  - apply orb_false_elim in H. destruct H as [Hx Hs].
    rewrite Hx, (IH Hs). reflexivity.
Qed.

Lemma split_first sep s t :
  occurs sep s = false ->
  split sep (s ++ String sep t) = s :: split sep t.
Proof.
  induction s as [|x s IH]; simpl; intro H.
  - rewrite Ascii.eqb_refl. reflexivity.
  - apply orb_false_elim in H. destruct H as [Hx Hs].
    rewrite Hx, (IH Hs). reflexivity.
Qed.

Lemma split_concat sep (ts : list string) :
  forall t,
    Forall (fun t => occurs sep t = false) (t :: ts) ->
    split sep (String.concat (String sep "") (t :: ts)) = t :: ts.
Proof.
  induction ts as [|u ts IH]; intros t H.
  - simpl. apply split_none. inversion H. assumption.
  - inversion H as [|? ? Ht Hrest]; subst.
    change (String.concat (String sep "") (t :: u :: ts))
      with (t ++ String sep (String.concat (String sep "") (u :: ts))).
    rewrite (split_first _ _ _ Ht), (IH u Hrest). reflexivity.
Qed.

Lemma plain_parts s :
  plain s = true -> occurs " " s = false /\ occurs "|" s = false.
Proof.
  unfold plain. intro H. apply andb_prop in H. destruct H as [H1 H2].
  split; apply negb_true_iff; assumption.
Qed.

Lemma well_formed_parts n :
  well_formed n = true ->
  plain (node_hostname n) = true /\ plain (node_ip n) = true
  /\ plain (node_port n) = true.
Proof.
  unfold well_formed. intro H.
  apply andb_prop in H. destruct H as [H H3].
  apply andb_prop in H. destruct H as [H1 H2]. auto.
Qed.

Lemma token_no_space n : well_formed n = true -> occurs " " (token n) = false.
Proof.
  intro H. destruct (well_formed_parts n H) as [H1 [H2 H3]].
  apply plain_parts in H1, H2, H3.
  unfold token. rewrite !occurs_app. simpl.
  destruct H1 as [-> _], H2 as [-> _], H3 as [-> _]. reflexivity.
Qed.

Lemma split_token n :
  well_formed n = true ->
  split "|" (token n) = [node_hostname n; node_ip n; node_port n].
Proof.
  intro H. destruct (well_formed_parts n H) as [H1 [H2 H3]].
  apply plain_parts in H1, H2, H3.
  unfold token.
  change (node_hostname n ++ "|" ++ node_ip n ++ "|" ++ node_port n)
    with (node_hostname n ++ String "|" (node_ip n ++ String "|" (node_port n))).
  rewrite (split_first _ _ _ (proj2 H1)), (split_first _ _ _ (proj2 H2)),
    (split_none _ _ (proj2 H3)).
  reflexivity.
Qed.

(** The claim of C1 fails on the example of the specification: the callback
    formats piece 0 and piece 2 of each token, the host name and the port;
    the address in the middle is dropped. *)
Lemma autodiscovery_example_counterexample :
  let evs := [Call CallAutodiscovery; SocketConnect;
              Line "CONFIG cluster 0 35"; Line "1";
              Line "h1|10.0.0.1|11211 h2|10.0.0.2|11211"; Line ""; Line "END"] in
  outcomes (run evs (new_Connection default_options))
  = [(0, Resolved (JArr ["h1:11211"; "h2:11211"]))]
  /\ then_autodiscovery (JStr "h1|10.0.0.1|11211 h2|10.0.0.2|11211")
     <> Resolved (JArr ["10.0.0.1:11211"; "10.0.0.2:11211"]).
Proof.
  intro evs. split; [reflexivity | discriminate].
Qed.

(** C1, amended: when the deferred of an autodiscovery call is resolved with
    a payload of one or more space-separated tokens hostname|ip|port (no
    field holding a space or a bar), the promise resolves to the list of
    strings hostname:port, one per token, in token order. *)
Theorem autodiscovery_resolves_to_hostname_port :
  forall d n ns,
    cmd d = CmdAutodiscovery ->
    forallb well_formed (n :: ns) = true ->
    future d (Resolved (JStr (payload (n :: ns))))
    = Resolved (JArr (map (fun n => node_hostname n ++ ":" ++ node_port n)
                        (n :: ns))).
Proof.
  intros d n ns Hd Hwf. unfold future. rewrite Hd.
  unfold then_autodiscovery, payload. cbn [toString fmt_s].
  assert (Hall : Forall (fun n => well_formed n = true) (n :: ns)).
  { apply Forall_forall. intros x Hx.
    exact (proj1 (forallb_forall _ _) Hwf x Hx). }
  change (map token (n :: ns)) with (token n :: map token ns).
  rewrite (split_concat " " (map token ns) (token n)).
  - do 2 f_equal. change (token n :: map token ns) with (map token (n :: ns)).
    rewrite map_map. apply map_ext_Forall.
    apply (Forall_impl _ (P := fun n => well_formed n = true)); [|exact Hall].
    intros x Hx. rewrite (split_token x Hx). reflexivity.
  - change (token n :: map token ns) with (map token (n :: ns)).
    apply Forall_map.
    apply (Forall_impl _ (P := fun n => well_formed n = true)); [|exact Hall].
    intros x Hx. exact (token_no_space x Hx).
Qed.

Lemma autodiscovery_resolves_to_hostname_port_witness :
  let d := mkDeferred 0 (JStr "autodiscovery") CmdAutodiscovery in
  let ns := [mkNode "h1" "10.0.0.1" "11211"; mkNode "h2" "10.0.0.2" "11211"] in
  cmd d = CmdAutodiscovery /\
  forallb well_formed ns = true /\
  future d (Resolved (JStr "h1|10.0.0.1|11211 h2|10.0.0.2|11211"))
  = Resolved (JArr ["h1:11211"; "h2:11211"]).
Proof.
  intros d ns. split; [reflexivity|]. split; [reflexivity|].
  exact (autodiscovery_resolves_to_hostname_port d
           (mkNode "h1" "10.0.0.1" "11211") [mkNode "h2" "10.0.0.2" "11211"]
           eq_refl eq_refl).
Defined.

(** ** The write buffer *)

(** Not ready: the chunk and its terminator are appended to the buffer. *)
Lemma write_not_ready c str :
  ready c = false ->
  write str c
  = (Ok tt, set_writeBuffer (Some (buffered c ++ [str; CRLF])%list) c).
Proof.
  intro H. destruct c; simpl in H; subst. run_method.
  unfold buffered, set_writeBuffer; simpl.
  rewrite <- app_assoc. reflexivity.
Qed.

(** Ready with an empty buffer: the chunk goes through the buffer and is
    flushed at once, so the socket gets it within the call. *)
Lemma write_ready_empty c sk str :
  ready c = true -> buffered c = [] -> client c = Some sk ->
  write str c
  = (Ok tt,
     set_writeBuffer (Some [])
       (set_client (Some (sock_write CRLF (sock_write str sk))) c)).
Proof.
  intros Hr Hb Hc. destruct c; simpl in Hr, Hc; subst.
  unfold buffered in Hb. simpl in Hb.
  destruct writeBuffer0 as [b|]; subst; reflexivity.
Qed.

(** Ready with chunks still buffered: the chunk is given to the socket
    directly and the buffered chunks stay where they are. *)
Lemma write_ready_nonempty c sk str chunk rest :
  ready c = true -> writeBuffer c = Some (chunk :: rest) -> client c = Some sk ->
  write str c
  = (Ok tt, set_client (Some (sock_write CRLF (sock_write str sk))) c).
Proof.
  intros Hr Hb Hc. destruct c; simpl in Hr, Hb, Hc; subst. reflexivity.
Qed.

(** [flushQueue] gives the buffered chunks to the socket oldest first. *)
Lemma drain_fifo chunks :
  forall c sk,
    client c = Some sk ->
    fst (drain chunks c) = Ok tt
    /\ written (exec (drain chunks) c) = (sk_written sk ++ chunks)%list.
Proof.
  induction chunks as [|chunk rest IH]; intros c sk Hc.
  - unfold exec, written. simpl. rewrite Hc, app_nil_r. auto.
  - unfold exec. simpl. unfold bind, client_write, on_client, assign.
    rewrite Hc.
    destruct (IH (set_writeBuffer (Some rest)
                    (set_client (Some (sock_write chunk sk)) c))
                 (sock_write chunk sk)) as [Hok Hw].
    { destruct c; reflexivity. }
    unfold exec in Hw. split; [exact Hok|].
    rewrite Hw. simpl. rewrite <- app_assoc. reflexivity.
Qed.

Lemma flushQueue_fifo c sk :
  client c = Some sk ->
  written (exec flushQueue c) = (sk_written sk ++ buffered c)%list.
Proof.
  intro Hc. unfold exec, flushQueue, bind, this, buffered.
  destruct (writeBuffer c) as [[|chunk rest]|].
  - unfold written. simpl. rewrite Hc, app_nil_r. reflexivity.
  - exact (proj2 (drain_fifo (chunk :: rest) c sk Hc)).
  - unfold written. simpl. rewrite Hc, app_nil_r. reflexivity.
Qed.

(** C2, where the code departs from it: the test in [write] sends a chunk
    straight to the socket when the connection is ready and the buffer is
    NOT empty.  A get issued before the socket connects is buffered; the
    ['connect'] listener sets [ready] and runs the [onConnect] callback
    before flushing, so a get issued by that callback overtakes the buffered
    one on the socket, while the queue of pending commands keeps the issue
    order. *)
Theorem write_overtakes_buffered_chunks :
  let c0 := new_Connection
              (mkOptions None None None (Some [CallGet (JStr "b")]) None) in
  let c1 := run [Call (CallGet (JStr "a"))] c0 in
  let c2 := run [SocketConnect] c1 in
  ready c1 = false
  /\ writeBuffer c1 = Some ["get a"; CRLF]
  /\ written c1 = []
  /\ written c2 = ["get b"; CRLF; "get a"; CRLF]
  /\ map key (queue c2) = [JStr "a"; JStr "b"].
Proof.
  intros c0 c1 c2. repeat split.
Qed.

(** ** Backoff *)

(** The ['close'] listener never touches [backoff] and [ready] of the
    connection. *)
Lemma close_keeps_connection_backoff c :
  backoff (exec (handle SocketClose) c) = backoff c
  /\ ready (exec (handle SocketClose) c) = ready c.
Proof.
  unfold exec, handle, on_close, bind, this, assign.
  destruct (reconnect c); [|auto].
  destruct (client c); destruct c; auto.
Qed.

(** C4, where the code departs from it.  On a connection built with the
    default options, connected once and then closed thirteen times in a row:
    the ['close'] listener works on the socket object, whose [backoff] was
    never assigned, so the backoff of the connection stays at 10, the
    connection stays [ready], and every timer is set with an undefined
    delay.  The arithmetic of the listener itself, on an object whose
    backoff is 10, doubles before the timer is set (first delay 20) and lets
    40960 double once more, to 81920, above 60000. *)
Theorem close_listener_misses_the_backoff :
  let c := run [SocketConnect] (new_Connection default_options) in
  let c' := run (repeat SocketClose 13) c in
  backoff (new_Connection default_options) = 10%Z
  /\ backoff c = 10%Z
  /\ backoff c' = 10%Z
  /\ ready c' = true
  /\ timers c' = repeat None 13
  /\ backoff_step (Some 10%Z) = Some 20%Z
  /\ Nat.iter 12 backoff_step (Some 10%Z) = Some 40960%Z
  /\ Nat.iter 13 backoff_step (Some 10%Z) = Some 81920%Z
  /\ Nat.iter 14 backoff_step (Some 10%Z) = Some 81920%Z.
Proof.
  intros c c'. repeat split.
Qed.


(** * Further properties of the connection *)

(** ** Properties kept by every method *)

Section Preserves.
Variable P : Connection -> Prop.

Lemma preserves_ret {A} (a : A) : preserves P (ret a).
Proof. intros c H. exact H. Qed.

Lemma preserves_throw {A} (e : jserror) : preserves P (@throw A e).
Proof. intros c H. exact H. Qed.

Lemma preserves_this : preserves P this.
Proof. intros c H. exact H. Qed.

Lemma preserves_bind {A B} (m : M A) (k : A -> M B) :
  preserves P m -> (forall a, preserves P (k a)) -> preserves P (bind m k).
Proof.
  intros Hm Hk c Hc. unfold bind. specialize (Hm c Hc).
  destruct (m c) as [[a|e] c1]; simpl in *.
  - apply Hk. exact Hm.
  - exact Hm.
Qed.

Lemma preserves_assign (f : Connection -> Connection) :
  (forall c, P c -> P (f c)) -> preserves P (assign f).
Proof. intros H c Hc. apply H. exact Hc. Qed.

Lemma preserves_on_client prop (f : Socket -> Socket) :
  (forall c sk, P c -> client c = Some sk -> P (set_client (Some (f sk)) c)) ->
  preserves P (on_client prop f).
Proof.
  intros H c Hc. unfold on_client.
  destruct (client c) as [sk|] eqn:Hk; simpl.
  - apply (H c sk Hc Hk).
  - exact Hc.
Qed.

Lemma preserves_assert cond msg : preserves P (assert cond msg).
Proof. intros c H. unfold assert. destruct cond; exact H. Qed.

Lemma preserves_defer k cm :
  (forall n c, P c -> P (set_next_id n c)) -> preserves P (defer k cm).
Proof. intros H c Hc. apply H. exact Hc. Qed.

Lemma preserves_run :
  (forall e, preserves P (handle e)) ->
  forall evs c, P c -> P (run evs c).
Proof.
  intros H evs. induction evs as [|e evs IH]; intros c Hc; simpl.
  - exact Hc.
  - apply IH. apply (H e). exact Hc.
Qed.
End Preserves.

Create HintDb keep_db.

(** [leaf] closes the obligations on single assignments. *)
Ltac preserving leaf :=
  repeat first
    [ solve [auto with keep_db nocore]
    | apply preserves_ret | apply preserves_throw | apply preserves_this
    | apply preserves_assert
    | apply preserves_on_client; solve [leaf]
    | apply preserves_assign; solve [leaf]
    | apply preserves_defer; solve [leaf]
    | apply preserves_bind; [| intro]
    | match goal with
      | |- preserves _ (if ?b then _ else _) => destruct b
      | |- preserves _ (match ?x with _ => _ end) => destruct x
      end ].

Ltac unfold_methods :=
  unfold read, write, flushQueue, peek, shift, resolve, reject, settle, key_of,
    buffer_push, client_write, queue_push, assert, set, get, delete,
    autodiscovery, connect, disconnect, on_close, on_timer.

(** ** The socket is always there *)

Ltac socket_leaf :=
  unfold has_socket;
  first [ intros ? [] ? ?; simpl in *; congruence
        | intros ? []; simpl; congruence
        | intros []; simpl; congruence ].

Lemma socket_drain chunks : preserves has_socket (drain chunks).
Proof.
  induction chunks as [|chunk rest IH]; simpl.
  - apply preserves_ret.
  - unfold client_write. preserving socket_leaf.
Qed.
#[local] Hint Resolve socket_drain : keep_db.

Lemma socket_flushQueue : preserves has_socket flushQueue.
Proof.
  unfold flushQueue. apply preserves_bind; [apply preserves_this|]. intro c.
  destruct (writeBuffer c) as [[|chunk rest]|];
    first [apply preserves_ret | apply socket_drain].
Qed.
#[local] Hint Resolve socket_flushQueue : keep_db.

Lemma socket_write str : preserves has_socket (write str).
Proof. unfold_methods. preserving socket_leaf. Qed.
#[local] Hint Resolve socket_write : keep_db.

Lemma socket_read line : preserves has_socket (read line).
Proof. unfold_methods. preserving socket_leaf. Qed.

Lemma socket_connect : preserves has_socket connect.
Proof. unfold_methods. preserving socket_leaf. Qed.
#[local] Hint Resolve socket_connect : keep_db.

Lemma socket_do_call cl : preserves has_socket (do_call cl).
Proof. destruct cl; simpl; unfold_methods; preserving socket_leaf. Qed.
#[local] Hint Resolve socket_do_call : keep_db.

Lemma socket_do_calls cls : preserves has_socket (do_calls cls).
Proof.
  induction cls as [|cl rest IH]; simpl.
  - apply preserves_ret.
  - apply preserves_bind; [apply socket_do_call | intro; exact IH].
Qed.
#[local] Hint Resolve socket_do_calls : keep_db.

Lemma socket_handle e : preserves has_socket (handle e).
Proof.
  destruct e; simpl.
  - apply socket_do_call.
  - apply socket_read.
  - unfold on_connect. preserving socket_leaf.
  - unfold_methods. preserving socket_leaf.
  - unfold_methods. preserving socket_leaf.
Qed.

Lemma socket_reachable opts evs : has_socket (run evs (new_Connection opts)).
Proof.
  apply (preserves_run has_socket socket_handle). discriminate.
Qed.

Lemma set_checked s val ttl c :
  (String.length s <? 250)%nat = true ->
  set (JStr s) val ttl c
  = (deferred <- defer (JStr s) CmdSet ;;
     queue_push deferred ;;
     fold_right (fun text m => write text ;; m) (ret deferred)
       [set_header s val ttl; val]) c.
Proof.
  intro H. unfold set. unfold bind at 1 2. unfold assert. simpl. rewrite H.
  unfold set_header, ttl_or_0.
  destruct ttl as [n|]; [|reflexivity].
  destruct (n =? 0)%Z eqn:Hn; [|reflexivity].
  apply Z.eqb_eq in Hn. subst n. reflexivity.
Qed.

Lemma set_refused k val ttl c :
  is_string k && length_below k 250 = false ->
  exists msg, set k val ttl c = (Throw (AssertionError msg), c).
Proof.
  intro H. unfold set, bind, assert.
  destruct (is_string k); simpl in *.
  - rewrite H. eexists. reflexivity.
  - eexists. reflexivity.
Qed.

(** X1: a connection always has its socket, from the constructor on and
    whatever happens to it, so get, delete and autodiscovery always return
    their promise, and set with a string value either returns its promise
    or throws the assertion error of its key checks with the connection
    unchanged.  (A set without a value, where [new Buffer] throws, is not
    covered.) *)
Theorem commands_return_on_every_reachable_connection :
  forall opts evs k val ttl,
    client (run evs (new_Connection opts)) <> None
    /\ (exists d, fst (get k (run evs (new_Connection opts))) = Ok d)
    /\ (exists d, fst (delete k (run evs (new_Connection opts))) = Ok d)
    /\ (exists d, fst (autodiscovery (run evs (new_Connection opts))) = Ok d)
    /\ ((exists d, fst (set k val ttl (run evs (new_Connection opts))) = Ok d)
        \/ (exists msg,
              set k val ttl (run evs (new_Connection opts))
              = (Throw (AssertionError msg), run evs (new_Connection opts)))).
Proof.
  intros opts evs k val ttl.
  pose proof (socket_reachable opts evs) as Hs.
  remember (run evs (new_Connection opts)) as c eqn:Hc. clear Hc.
  split; [exact Hs|]. split; [|split; [|split]].
  - exact (proj2 (proj1 (tame_issue k CmdGet ["get " ++ fmt_s k] c) Hs)).
  - exact (proj2 (proj1 (tame_issue k CmdDelete ["delete " ++ fmt_s k] c) Hs)).
  - exact (proj2 (proj1 (tame_issue (JStr "autodiscovery") CmdAutodiscovery
                           ["config get cluster"] c) Hs)).
  - destruct (is_string k && length_below k 250) eqn:Hk.
    + left. destruct k as [| | | |s|l]; try discriminate Hk. simpl in Hk.
      rewrite (set_checked s val ttl c Hk).
      exact (proj2 (proj1 (tame_issue (JStr s) CmdSet
                             [set_header s val ttl; val] c) Hs)).
    + right. exact (set_refused k val ttl c Hk).
Qed.

(** ** What one line can do *)

(** X3: one line handed to [read] settles at most one command, and only
    the head of the queue: either the queue and the settlements are as
    before, or the head left the queue, was settled, and [this.data] is
    null.  In both cases no deferred was created, and the socket, the write
    buffer and the flags [ready] and [disconnecting] are untouched. *)
Theorem a_line_settles_at_most_the_head :
  forall c line,
    ((queue (exec (read line) c) = queue c
      /\ settled (exec (read line) c) = settled c)
     \/ (exists d rest s,
           queue c = d :: rest
           /\ queue (exec (read line) c) = rest
           /\ settled (exec (read line) c) = (settled c ++ [(d, s)])%list
           /\ data (exec (read line) c) = JNull))
    /\ next_id (exec (read line) c) = next_id c
    /\ client (exec (read line) c) = client c
    /\ writeBuffer (exec (read line) c) = writeBuffer c
    /\ ready (exec (read line) c) = ready c
    /\ disconnecting (exec (read line) c) = disconnecting c.
Proof.
  intros c line. unfold exec.
  destruct (queue c) as [|d rest] eqn:Hq;
    [rewrite (read_idle c line Hq) | rewrite (read_pending c d rest line Hq)];
    destruct (classify line); unfold completed;
    destruct c; simpl in *; subst;
    (split;
     [ first [ left; split; reflexivity
             | right; do 3 eexists; repeat split; reflexivity ]
     | auto ]).
Qed.

(** X4: a line starting with END, STORED, DELETED or NOT_FOUND that arrives
    while no command is pending makes [read] throw a TypeError, the call of
    resolve on the undefined head, and leaves the connection as it was. *)
Theorem unsolicited_terminal_line_throws :
  forall c line,
    queue c = [] ->
    terminal line = true ->
    substr0 5 line <> "ERROR" ->
    read line c = (Throw (TypeError "resolve"), c).
Proof.
  intros c line Hq Ht Hne. rewrite (read_idle c line Hq).
  unfold terminal in Ht.
  destruct (classify line) eqn:Hc; try discriminate Ht; try reflexivity.
  exfalso. apply Hne. unfold classify in Hc.
  destruct (substr0 5 line =? "ERROR") eqn:He.
  - apply String.eqb_eq. exact He.
  - repeat match type of Hc with
           | (if ?b then _ else _) = _ => destruct b
           end; discriminate Hc.
Qed.

Lemma unsolicited_terminal_line_throws_witness :
  let c := run [SocketConnect] (new_Connection default_options) in
  queue c = [] /\ terminal "STORED" = true /\ substr0 5 "STORED" <> "ERROR"
  /\ read "STORED" c = (Throw (TypeError "resolve"), c).
Proof.
  intro c. split; [reflexivity|]. split; [reflexivity|].
  split; [discriminate|].
  exact (unsolicited_terminal_line_throws c "STORED" eq_refl eq_refl
           ltac:(discriminate)).
Defined.

(** ** Flushing and the text of the commands *)

Lemma sk_written_writes chunks :
  forall sk, sk_written (sock_writes chunks sk) = (sk_written sk ++ chunks)%list.
Proof.
  induction chunks as [|chunk rest IH]; intro sk; simpl.
  - rewrite app_nil_r. reflexivity.
  - unfold sock_writes in *. simpl. rewrite IH. simpl.
    rewrite <- app_assoc. reflexivity.
Qed.

Lemma drain_state chunk rest :
  forall c sk,
    client c = Some sk ->
    drain (chunk :: rest) c
    = (Ok tt,
       set_writeBuffer (Some [])
         (set_client (Some (sock_writes (chunk :: rest) sk)) c)).
Proof.
  revert chunk. induction rest as [|next rest IH]; intros chunk c sk Hc.
  - simpl. unfold bind, client_write, on_client, assign, ret. rewrite Hc.
    destruct c; reflexivity.
  - change (drain (chunk :: next :: rest))
      with (client_write chunk ;; assign (set_writeBuffer (Some (next :: rest))) ;;
            drain (next :: rest)).
    unfold bind at 1 2. unfold client_write, on_client, assign. rewrite Hc.
    rewrite (IH next _ (sock_write chunk sk)).
    + destruct c; reflexivity.
    + destruct c; reflexivity.
Qed.

Lemma flushQueue_state c sk :
  client c = Some sk ->
  flushQueue c
  = (Ok tt,
     match writeBuffer c with
     | Some (chunk :: rest) =>
         set_writeBuffer (Some [])
           (set_client (Some (sock_writes (chunk :: rest) sk)) c)
     | _ => c
     end).
Proof.
  intro Hc. unfold flushQueue, bind, this.
  destruct (writeBuffer c) as [[|chunk rest]|]; try reflexivity.
  apply drain_state. exact Hc.
Qed.

(** X5: on a connection that has its socket, [flushQueue] returns normally,
    gives every buffered chunk to the socket, oldest first and after what
    the socket already got, and leaves the buffer empty; the pending
    commands, the settlements, [this.data] and the flags are untouched. *)
Theorem flushQueue_drains_in_order :
  forall c sk,
    client c = Some sk ->
    fst (flushQueue c) = Ok tt
    /\ written (exec flushQueue c) = (sk_written sk ++ buffered c)%list
    /\ buffered (exec flushQueue c) = []
    /\ correlation (exec flushQueue c) = correlation c
    /\ ready (exec flushQueue c) = ready c
    /\ disconnecting (exec flushQueue c) = disconnecting c.
Proof.
  intros c sk Hc. unfold exec. rewrite (flushQueue_state c sk Hc).
  unfold written, buffered.
  destruct c; simpl in *; subst.
  destruct writeBuffer0 as [[|chunk rest]|]; simpl;
    rewrite ?app_nil_r; repeat split.
  exact (sk_written_writes (chunk :: rest) sk).
Qed.

Lemma flushQueue_drains_in_order_witness :
  let c := run [Call (CallGet (JStr "a")); Call (CallDelete (JStr "b"))]
               (new_Connection default_options) in
  client c = Some net_connect
  /\ written (exec flushQueue c) = ["get a"; CRLF; "delete b"; CRLF]
  /\ buffered (exec flushQueue c) = [].
Proof.
  intro c. split; [reflexivity|].
  pose proof (flushQueue_drains_in_order c net_connect eq_refl) as H.
  split; [exact (proj1 (proj2 H)) | exact (proj1 (proj2 (proj2 H)))].
Defined.

(** A chunk written on a ready connection with an empty buffer. *)
Lemma write_through c sk str :
  ready c = true -> buffered c = [] -> client c = Some sk ->
  fst (write str c) = Ok tt
  /\ ready (exec (write str) c) = true
  /\ buffered (exec (write str) c) = []
  /\ client (exec (write str) c) = Some (sock_write CRLF (sock_write str sk))
  /\ correlation (exec (write str) c) = correlation c.
Proof.
  intros Hr Hb Hc. unfold exec.
  rewrite (write_ready_empty c sk str Hr Hb Hc).
  destruct c; simpl in *; subst. repeat split.
Qed.

Lemma bind_ok {A B} (m : M A) (k : A -> M B) c a c' :
  m c = (Ok a, c') -> bind m k c = k a c'.
Proof. intro H. unfold bind. rewrite H. reflexivity. Qed.

Lemma writes_through (texts : list string) (d : deferred) :
  forall c sk,
    ready c = true -> buffered c = [] -> client c = Some sk ->
    let m := fold_right (fun text m => write text ;; m) (ret d) texts in
    fst (m c) = Ok d
    /\ written (exec m c)
       = (sk_written sk ++ flat_map (fun text => [text; CRLF]) texts)%list
    /\ buffered (exec m c) = []
    /\ ready (exec m c) = true.
Proof.
  induction texts as [|text texts IH]; intros c sk Hr Hb Hc; simpl.
  - unfold exec, ret, written. simpl. rewrite Hc, app_nil_r. auto.
  - unfold exec.
    rewrite (bind_ok _ _ c tt _ (write_ready_empty c sk text Hr Hb Hc)).
    destruct (IH (set_writeBuffer (Some [])
                    (set_client (Some (sock_write CRLF (sock_write text sk))) c))
                 (sock_write CRLF (sock_write text sk)))
      as [H1 [H2 [H3 H4]]]; try (destruct c; simpl in *; auto; fail).
    unfold exec in *. repeat split; try assumption.
    rewrite H2. simpl. rewrite <- !app_assoc. reflexivity.
Qed.

Lemma issue_through k cm c sk (texts : list string) :
  ready c = true -> buffered c = [] -> client c = Some sk ->
  let m := (deferred <- defer k cm ;; queue_push deferred ;;
            fold_right (fun text m => write text ;; m) (ret deferred) texts) in
  fst (m c) = Ok (mkDeferred (next_id c) k cm)
  /\ written (exec m c)
     = (sk_written sk ++ flat_map (fun text => [text; CRLF]) texts)%list
  /\ buffered (exec m c) = []
  /\ ready (exec m c) = true.
Proof.
  intros Hr Hb Hc m. subst m.
  unfold exec, bind at 1 2, defer, queue_push, assign.
  apply (writes_through texts (mkDeferred (next_id c) k cm) _ sk);
    destruct c; assumption.
Qed.

(** X6: on a ready connection whose buffer is empty, a set with a string
    key of fewer than 250 characters, a string value and a ttl that is left
    out or is an integer below 2^53 in absolute value gives the socket,
    within the call, the header line [set <key> 0 <ttl> <bytes>] (ttl 0 when
    left out), the line terminator, the value and the line terminator, in
    that order; it returns the promise of the deferred it queued and buffers
    nothing. *)
Theorem set_sends_header_then_value :
  forall c sk k val ttl,
    ready c = true -> buffered c = [] -> client c = Some sk ->
    String.length k < 250 ->
    exact_ttl ttl = true ->
    fst (set (JStr k) val ttl c) = Ok (mkDeferred (next_id c) (JStr k) CmdSet)
    /\ written (exec (set (JStr k) val ttl) c)
       = (sk_written sk
          ++ [("set " ++ k ++ " 0 "
                 ++ dec (match ttl with Some n => n | None => 0%Z end)
                 ++ " " ++ dec (Z.of_nat (String.length val)))%string;
              CRLF; val; CRLF])%list
    /\ buffered (exec (set (JStr k) val ttl) c) = []
    /\ queue (exec (set (JStr k) val ttl) c)
       = (queue c ++ [mkDeferred (next_id c) (JStr k) CmdSet])%list.
Proof.
  intros c sk k val ttl Hr Hb Hc Hlen _.
  assert (Hk : (String.length k <? 250)%nat = true)
    by (apply Nat.ltb_lt; exact Hlen).
  unfold exec. rewrite (set_checked k val ttl c Hk).
  destruct (issue_through (JStr k) CmdSet c sk [set_header k val ttl; val]
              Hr Hb Hc) as [H1 [H2 [H3 _]]].
  split; [exact H1|]. split; [exact H2|]. split; [exact H3|].
  refine (proj1 (issue_numbered (JStr k) CmdSet
                   (fun deferred =>
                      fold_right (fun text m => write text ;; m) (ret deferred)
                        [set_header k val ttl; val]) c _)).
  intro d. simpl. frame.
Qed.

Lemma set_sends_header_then_value_witness :
  let c := run [SocketConnect] (new_Connection default_options) in
  ready c = true /\ buffered c = [] /\ String.length "k" < 250
  /\ exact_ttl (Some 3600%Z) = true
  /\ written (exec (set (JStr "k") "abc" (Some 3600%Z)) c)
     = ["set k 0 3600 3"; CRLF; "abc"; CRLF].
Proof.
  intro c. split; [reflexivity|]. split; [reflexivity|].
  assert (Hlen : String.length "k" < 250) by (simpl; lia).
  split; [exact Hlen|]. split; [reflexivity|].
  exact (proj1 (proj2 (set_sends_header_then_value c net_connect "k" "abc"
                         (Some 3600%Z) eq_refl eq_refl eq_refl Hlen eq_refl))).
Defined.

(** X7: on a ready connection whose buffer is empty, get, delete and
    autodiscovery give the socket, within the call, one line each
    ([get <key>], [delete <key>], [config get cluster]) followed by the
    line terminator, and buffer nothing.  The key is a string, undefined,
    null, a boolean or an integer below 2^53 in absolute value. *)
Theorem one_line_commands_are_sent_at_once :
  forall c sk k,
    ready c = true -> buffered c = [] -> client c = Some sk ->
    exact_key k = true ->
    (written (exec (get k) c)
     = (sk_written sk ++ [("get " ++ fmt_s k)%string; CRLF])%list
     /\ buffered (exec (get k) c) = [])
    /\ (written (exec (delete k) c)
        = (sk_written sk ++ [("delete " ++ fmt_s k)%string; CRLF])%list
        /\ buffered (exec (delete k) c) = [])
    /\ (written (exec autodiscovery c)
        = (sk_written sk ++ ["config get cluster"; CRLF])%list
        /\ buffered (exec autodiscovery c) = []).
Proof.
  intros c sk k Hr Hb Hc _.
  destruct (issue_through k CmdGet c sk ["get " ++ fmt_s k] Hr Hb Hc)
    as [_ [G1 [G2 _]]].
  destruct (issue_through k CmdDelete c sk ["delete " ++ fmt_s k] Hr Hb Hc)
    as [_ [D1 [D2 _]]].
  destruct (issue_through (JStr "autodiscovery") CmdAutodiscovery c sk
              ["config get cluster"] Hr Hb Hc) as [_ [A1 [A2 _]]].
  repeat split; assumption.
Qed.

Lemma one_line_commands_are_sent_at_once_witness :
  let c := run [SocketConnect] (new_Connection default_options) in
  ready c = true /\ buffered c = []
  /\ exact_key (JStr "k") = true /\ exact_key (JNum 7) = true
  /\ written (exec (get (JStr "k")) c) = ["get k"; CRLF]
  /\ written (exec (delete (JNum 7)) c) = ["delete 7"; CRLF].
Proof.
  intro c. split; [reflexivity|]. split; [reflexivity|].
  split; [reflexivity|]. split; [reflexivity|]. split.
  - exact (proj1 (proj1 (one_line_commands_are_sent_at_once c net_connect
                           (JStr "k") eq_refl eq_refl eq_refl eq_refl))).
  - exact (proj1 (proj1 (proj2 (one_line_commands_are_sent_at_once c net_connect
                                  (JNum 7) eq_refl eq_refl eq_refl eq_refl)))).
Defined.

(** ** Commands issued while the connection is not ready *)

Lemma writes_buffered (texts : list string) (d : deferred) :
  forall c,
    ready c = false ->
    let m := fold_right (fun text m => write text ;; m) (ret d) texts in
    fst (m c) = Ok d
    /\ client (exec m c) = client c
    /\ buffered (exec m c)
       = (buffered c ++ flat_map (fun text => [text; CRLF]) texts)%list
    /\ ready (exec m c) = false.
Proof.
  induction texts as [|text texts IH]; intros c Hr; simpl.
  - unfold exec, ret. simpl. rewrite app_nil_r. auto.
  - unfold exec.
    rewrite (bind_ok _ _ c tt _ (write_not_ready c text Hr)).
    destruct (IH (set_writeBuffer (Some (buffered c ++ [text; CRLF])%list) c))
      as [H1 [H2 [H3 H4]]]; [destruct c; exact Hr|].
    unfold exec in *. repeat split; try assumption.
    rewrite H3. unfold buffered at 1. destruct c; simpl.
    rewrite <- app_assoc. reflexivity.
Qed.

Lemma issue_buffered k cm c (texts : list string) :
  ready c = false ->
  let m := (deferred <- defer k cm ;; queue_push deferred ;;
            fold_right (fun text m => write text ;; m) (ret deferred) texts) in
  client (exec m c) = client c
  /\ buffered (exec m c)
     = (buffered c ++ flat_map (fun text => [text; CRLF]) texts)%list
  /\ ready (exec m c) = false.
Proof.
  intros Hr m. subst m.
  unfold exec, bind at 1 2, defer, queue_push, assign.
  destruct (writes_buffered texts (mkDeferred (next_id c) k cm)
              (set_queue (queue (set_next_id (S (next_id c)) c)
                            ++ [mkDeferred (next_id c) k cm])%list
                 (set_next_id (S (next_id c)) c)))
    as [_ [H2 [H3 H4]]]; [destruct c; exact Hr|].
  unfold exec in *.
  split; [exact H2|]. split; [|exact H4].
  etransitivity; [exact H3|]. destruct c; reflexivity.
Qed.

Lemma wire_refused k val ttl :
  is_string k && length_below k 250 = false -> wire (CallSet k val ttl) = [].
Proof.
  destruct k as [| | | |s|l]; simpl; try reflexivity.
  intros ->. reflexivity.
Qed.

(** X8: while the connection is not ready, a call gives nothing to the
    socket: the lines of a command (none for a set whose key is refused, none
    for disconnect) are appended to the write buffer behind what is already
    there, and the connection stays not ready.  The key of the call is a
    string, undefined, null, a boolean or an integer below 2^53 in absolute
    value, and so is a ttl that is given. *)
Theorem calls_are_buffered_while_not_ready :
  forall c cl,
    ready c = false ->
    exact_call cl = true ->
    written (exec (do_call cl) c) = written c
    /\ buffered (exec (do_call cl) c) = (buffered c ++ wire cl)%list
    /\ ready (exec (do_call cl) c) = false.
Proof.
  intros c cl Hr _.
  assert (Hissue : forall k cm texts,
            let m := (deferred <- defer k cm ;; queue_push deferred ;;
                      fold_right (fun text m => write text ;; m) (ret deferred)
                        texts) in
            written (exec (m ;; ret tt) c) = written c
            /\ buffered (exec (m ;; ret tt) c)
               = (buffered c ++ flat_map (fun text => [text; CRLF]) texts)%list
            /\ ready (exec (m ;; ret tt) c) = false).
  { intros k cm texts m.
    destruct (issue_buffered k cm c texts Hr) as [H1 [H2 H3]].
    fold m in H1, H2, H3. unfold exec, bind in *.
    destruct (m c) as [[d|e] c1]; simpl in *; unfold written;
      rewrite H1; auto. }
  destruct cl as [k val ttl|k|k| |]; cbn [do_call].
  - destruct (is_string k && length_below k 250) eqn:Hk.
    + destruct k as [| | | |s|l]; try discriminate Hk. simpl in Hk.
      cbn [wire]. rewrite Hk.
      assert (Heq : exec (set (JStr s) val ttl ;; ret tt) c
                    = exec ((deferred <- defer (JStr s) CmdSet ;;
                             queue_push deferred ;;
                             fold_right (fun text m => write text ;; m)
                               (ret deferred) [set_header s val ttl; val]) ;;
                            ret tt) c).
      { unfold exec. unfold bind at 1. rewrite (set_checked s val ttl c Hk).
        reflexivity. }
      rewrite Heq.
      exact (Hissue (JStr s) CmdSet [set_header s val ttl; val]).
    + rewrite (wire_refused k val ttl Hk), app_nil_r.
      destruct (set_refused k val ttl c Hk) as [msg Hmsg].
      unfold exec, bind. rewrite Hmsg. simpl. auto.
  - exact (Hissue k CmdGet ["get " ++ fmt_s k]).
  - exact (Hissue k CmdDelete ["delete " ++ fmt_s k]).
  - exact (Hissue (JStr "autodiscovery") CmdAutodiscovery ["config get cluster"]).
  - rewrite app_nil_r. unfold exec, disconnect, bind, assign, on_client, written,
      buffered.
    destruct c; simpl in *. destruct client0; simpl; auto.
Qed.

Lemma calls_are_buffered_while_not_ready_witness :
  let c := new_Connection default_options in
  ready c = false
  /\ exact_call (CallSet (JStr "k") "v" (Some 60%Z)) = true
  /\ written (exec (do_call (CallSet (JStr "k") "v" (Some 60%Z))) c) = []
  /\ buffered (exec (do_call (CallSet (JStr "k") "v" (Some 60%Z))) c)
     = ["set k 0 60 1"; CRLF; "v"; CRLF].
Proof.
  intro c. split; [reflexivity|]. split; [reflexivity|].
  pose proof (calls_are_buffered_while_not_ready c
                (CallSet (JStr "k") "v" (Some 60%Z)) eq_refl eq_refl) as H.
  split; [exact (proj1 H) | exact (proj1 (proj2 H))].
Defined.

(** ** Without an onConnect callback nothing overtakes *)

Lemma emits_write str : emits [str; CRLF] (write str).
Proof.
  intros c [Hs [Ho Hb]].
  destruct (client c) as [sk|] eqn:Hc; [|contradiction].
  destruct (ready c) eqn:Hr.
  - specialize (Hb eq_refl).
    rewrite (write_ready_empty c sk str Hr Hb Hc). simpl.
    unfold steady, stream, written, buffered in *.
    destruct c; simpl in *; subst. rewrite Hb.
    repeat split; try discriminate; try (eexists; reflexivity).
    rewrite !app_nil_r, <- app_assoc. reflexivity.
  - rewrite (write_not_ready c str Hr). simpl.
    unfold steady, stream, written, buffered in *.
    destruct c; simpl in *; subst.
    repeat split; try discriminate; try (eexists; reflexivity).
    rewrite app_assoc. reflexivity.
Qed.

Lemma emits_writes (texts : list string) (d : deferred) :
  emits (flat_map (fun text => [text; CRLF]) texts)
    (fold_right (fun text m => write text ;; m) (ret d) texts).
Proof.
  induction texts as [|text texts IH]; simpl; intros c Hc.
  - unfold stream. simpl. rewrite app_nil_r.
    split; [exact Hc|]. split; [reflexivity | exists d; reflexivity].
  - destruct (emits_write text c Hc) as [Hs1 [Hst1 [[] Hok]]].
    destruct (write text c) as [[[]|e] c1] eqn:Hw; simpl in *;
      [|discriminate Hok].
    rewrite (bind_ok _ _ c tt c1 Hw).
    destruct (IH c1 Hs1) as [Hs2 [Hst2 Hok2]].
    split; [exact Hs2|]. split; [|exact Hok2].
    rewrite Hst2, Hst1, <- app_assoc. reflexivity.
Qed.

Lemma emits_issue k cm (texts : list string) :
  emits (flat_map (fun text => [text; CRLF]) texts)
    (deferred <- defer k cm ;; queue_push deferred ;;
     fold_right (fun text m => write text ;; m) (ret deferred) texts).
Proof.
  intros c Hc. unfold bind at 1 2. unfold defer, queue_push, assign.
  destruct (emits_writes texts (mkDeferred (next_id c) k cm)
              (set_queue (queue (set_next_id (S (next_id c)) c)
                            ++ [mkDeferred (next_id c) k cm])%list
                 (set_next_id (S (next_id c)) c)))
    as [H1 [H2 H3]].
  { destruct c; exact Hc. }
  split; [exact H1|]. split; [|exact H3].
  etransitivity; [exact H2|]. destruct c; reflexivity.
Qed.

(** One event on a steady connection. *)
Lemma steady_handle e c :
  steady c ->
  steady (exec (handle e) c)
  /\ stream (exec (handle e) c) = (stream c ++ wire_of e)%list.
Proof.
  intro Hc.
  assert (Hissue : forall k cm texts,
            let m := (deferred <- defer k cm ;; queue_push deferred ;;
                      fold_right (fun text m => write text ;; m) (ret deferred)
                        texts) in
            steady (exec (m ;; ret tt) c)
            /\ stream (exec (m ;; ret tt) c)
               = (stream c ++ flat_map (fun text => [text; CRLF]) texts)%list).
  { intros k cm texts m.
    destruct (emits_issue k cm texts c Hc) as [H1 [H2 [d Hd]]].
    fold m in H1, H2, Hd. unfold exec, bind.
    destruct (m c) as [[d'|e'] c1]; simpl in *; auto. }
  destruct e as [cl|line| | |]; cbn [handle wire_of].
  - destruct cl as [k val ttl|k|k| |]; cbn [do_call].
    + destruct (is_string k && length_below k 250) eqn:Hk.
      * destruct k as [| | | |s|l]; try discriminate Hk. simpl in Hk.
        cbn [wire]. rewrite Hk.
        assert (Heq : exec (set (JStr s) val ttl ;; ret tt) c
                      = exec ((deferred <- defer (JStr s) CmdSet ;;
                               queue_push deferred ;;
                               fold_right (fun text m => write text ;; m)
                                 (ret deferred) [set_header s val ttl; val]) ;;
                              ret tt) c).
        { unfold exec. unfold bind at 1. rewrite (set_checked s val ttl c Hk).
          reflexivity. }
        rewrite Heq.
        exact (Hissue (JStr s) CmdSet [set_header s val ttl; val]).
      * rewrite (wire_refused k val ttl Hk), app_nil_r.
        destruct (set_refused k val ttl c Hk) as [msg Hmsg].
        unfold exec, bind. rewrite Hmsg. simpl. auto.
    + exact (Hissue k CmdGet ["get " ++ fmt_s k]).
    + exact (Hissue k CmdDelete ["delete " ++ fmt_s k]).
    + exact (Hissue (JStr "autodiscovery") CmdAutodiscovery
               ["config get cluster"]).
    + rewrite app_nil_r. destruct Hc as [Hs [Ho Hb]].
      unfold exec, disconnect, bind, assign, on_client, steady, stream, written,
        buffered in *.
      destruct c; simpl in *. destruct client0; simpl; [|contradiction].
      repeat split; try discriminate; assumption.
  - rewrite app_nil_r. unfold exec.
    destruct Hc as [Hs [Ho Hb]]. unfold steady, stream, written, buffered in *.
    destruct (queue c) as [|d rest] eqn:Hq;
      [rewrite (read_idle c line Hq) | rewrite (read_pending c d rest line Hq)];
      destruct (classify line); unfold completed;
      destruct c; simpl in *; auto.
  - rewrite app_nil_r. destruct Hc as [Hs [Ho Hb]].
    destruct (client c) as [sk|] eqn:Hk; [|contradiction].
    unfold exec, on_connect, bind, assign, this.
    cbn [fst snd]. 
    replace (onConnect (set_backoff 10 (set_ready true c))) with (@None (list call))
      by (destruct c; simpl in *; congruence).
    rewrite (flushQueue_state (set_backoff 10 (set_ready true c)) sk)
      by (destruct c; exact Hk).
    unfold steady, stream, written, buffered.
    destruct c; simpl in *; subst.
    destruct writeBuffer0 as [[|chunk rest]|]; simpl;
      rewrite ?app_nil_r; repeat split; try discriminate; try reflexivity.
    exact (sk_written_writes (chunk :: rest) sk).
  - rewrite app_nil_r. destruct Hc as [Hs [Ho Hb]].
    unfold exec, on_close, bind, assign, this, steady, stream, written,
      buffered in *.
    destruct c; simpl in *. destruct reconnect0; simpl; [|auto].
    destruct client0; simpl; [|contradiction].
    repeat split; try discriminate; assumption.
  - rewrite app_nil_r. destruct Hc as [Hs [Ho Hb]].
    unfold exec, on_timer, connect, on_client, bind, assign, this, steady,
      stream, written, buffered in *.
    destruct c; simpl in *. destruct timers0; simpl; [auto|].
    destruct disconnecting0; simpl; [auto|].
    destruct client0; simpl; [|contradiction].
    repeat split; try discriminate; assumption.
Qed.

Lemma steady_run evs :
  forall c,
    steady c ->
    steady (run evs c)
    /\ stream (run evs c) = (stream c ++ flat_map wire_of evs)%list.
Proof.
  induction evs as [|e evs IH]; intros c Hc; simpl.
  - rewrite app_nil_r. auto.
  - destruct (steady_handle e c Hc) as [H1 H2].
    destruct (IH _ H1) as [H3 H4].
    split; [exact H3|]. rewrite H4, H2, <- app_assoc. reflexivity.
Qed.

(** X9: on a connection built without an onConnect callback, whatever
    calls, lines and socket events occur, the chunks given to the socket so
    far followed by the chunks still buffered are exactly the lines of the
    commands issued so far, each with its terminator, in issue order:
    nothing is lost, repeated or reordered across disconnects and
    reconnects.  Nothing is ever buffered while such a connection is
    ready.  The keys of the calls are strings, undefined, null, booleans or
    integers below 2^53 in absolute value, and so are the ttls given. *)
Theorem without_callback_the_wire_follows_issue_order :
  forall opts evs,
    opt_onConnect opts = None ->
    forallb exact_event evs = true ->
    (written (run evs (new_Connection opts))
     ++ buffered (run evs (new_Connection opts)))%list
    = flat_map wire_of evs
    /\ (ready (run evs (new_Connection opts)) = true ->
        buffered (run evs (new_Connection opts)) = []).
Proof.
  intros opts evs Ho _.
  assert (Hs : steady (new_Connection opts)).
  { unfold steady. simpl. repeat split; try discriminate. exact Ho. }
  destruct (steady_run evs _ Hs) as [[_ [_ H1]] H2].
  split; [exact H2 | exact H1].
Qed.

Lemma without_callback_the_wire_follows_issue_order_witness :
  let evs := [Call (CallGet (JStr "a")); SocketConnect; SocketClose;
              Call (CallDelete (JStr "b")); Call CallDisconnect;
              Call (CallGet (JStr "c"))] in
  opt_onConnect default_options = None
  /\ forallb exact_event evs = true
  /\ (written (run evs (new_Connection default_options))
      ++ buffered (run evs (new_Connection default_options)))%list
     = ["get a"; CRLF; "delete b"; CRLF; "get c"; CRLF].
Proof.
  intro evs. split; [reflexivity|]. split; [reflexivity|].
  exact (proj1 (without_callback_the_wire_follows_issue_order
                  default_options evs eq_refl eq_refl)).
Defined.

(** ** The backoff of the connection *)

Ltac kept_leaf := intros; simpl; assumption.

Lemma backoff_drain b chunks : preserves (fun c => backoff c = b) (drain chunks).
Proof.
  induction chunks as [|chunk rest IH]; simpl.
  - apply preserves_ret.
  - unfold client_write. preserving kept_leaf.
Qed.

Lemma backoff_flushQueue b : preserves (fun c => backoff c = b) flushQueue.
Proof.
  unfold flushQueue. apply preserves_bind; [apply preserves_this|]. intro c.
  destruct (writeBuffer c) as [[|chunk rest]|];
    first [apply preserves_ret | apply backoff_drain].
Qed.

Lemma backoff_write b str : preserves (fun c => backoff c = b) (write str).
Proof.
  pose proof (backoff_flushQueue b). unfold_methods. preserving kept_leaf.
Qed.

Lemma backoff_do_call b cl : preserves (fun c => backoff c = b) (do_call cl).
Proof.
  pose proof (backoff_write b).
  destruct cl; simpl; unfold set, get, delete, autodiscovery, disconnect,
    queue_push; preserving kept_leaf.
Qed.

Lemma backoff_do_calls b cls : preserves (fun c => backoff c = b) (do_calls cls).
Proof.
  induction cls as [|cl rest IH]; simpl.
  - apply preserves_ret.
  - apply preserves_bind; [apply backoff_do_call | intro; exact IH].
Qed.

Lemma backoff_on_connect c : backoff (exec on_connect c) = 10%Z.
Proof.
  change (exec on_connect c)
    with (snd ((c' <- this ;;
                match onConnect c' with
                | Some callback => do_calls callback ;; flushQueue
                | None => flushQueue
                end) (set_backoff 10 (set_ready true c)))).
  pose proof (backoff_do_calls 10%Z). pose proof (backoff_flushQueue 10%Z).
  assert (Hp : preserves (fun c => backoff c = 10%Z)
                 (c' <- this ;;
                  match onConnect c' with
                  | Some callback => do_calls callback ;; flushQueue
                  | None => flushQueue
                  end)).
  { preserving kept_leaf. }
  apply Hp. destruct c; reflexivity.
Qed.

Lemma backoff_handle e c :
  backoff (exec (handle e) c) = if is_connect e then 10%Z else backoff c.
Proof.
  destruct e as [cl|line| | |]; cbn [is_connect].
  - exact (backoff_do_call (backoff c) cl c eq_refl).
  - assert (Hp : preserves (fun c0 => backoff c0 = backoff c) (read line)).
    { unfold_methods. preserving kept_leaf. }
    exact (Hp c eq_refl).
  - apply backoff_on_connect.
  - exact (proj1 (close_keeps_connection_backoff c)).
  - assert (Hp : preserves (fun c0 => backoff c0 = backoff c) (handle TimerFires)).
    { simpl. unfold_methods. preserving kept_leaf. }
    exact (Hp c eq_refl).
Qed.

(** X10: the backoff of the connection is only ever assigned by the
    ['connect'] listener.  After any sequence of calls, lines, socket events
    and timers it is 10 if the socket connected at least once, and otherwise
    still the value the constructor gave it; no close of the socket ever
    raises it. *)
Theorem only_a_connect_changes_the_backoff :
  forall evs c,
    backoff (run evs c) = if existsb is_connect evs then 10%Z else backoff c.
Proof.
  induction evs as [|e evs IH]; intro c; simpl.
  - reflexivity.
  - fold (exec (handle e) c). rewrite IH, backoff_handle.
    destruct (is_connect e); simpl; [|reflexivity].
    destruct (existsb is_connect evs); reflexivity.
Qed.

(** ** After disconnect *)

Ltac final_leaf :=
  unfold attempts;
  first [ intros [] [] [? ?] ?; simpl in *; subst; simpl in *;
          split; solve [assumption | reflexivity]
        | intros ? [] [? ?]; simpl in *; split; assumption
        | intros [] [? ?]; simpl in *; split; solve [assumption | reflexivity] ].

Lemma final_drain a chunks :
  preserves (fun c => disconnecting c = true /\ attempts c = a) (drain chunks).
Proof.
  induction chunks as [|chunk rest IH]; simpl.
  - apply preserves_ret.
  - unfold client_write. preserving final_leaf.
Qed.

Lemma final_flushQueue a :
  preserves (fun c => disconnecting c = true /\ attempts c = a) flushQueue.
Proof.
  unfold flushQueue. apply preserves_bind; [apply preserves_this|]. intro c.
  destruct (writeBuffer c) as [[|chunk rest]|];
    first [apply preserves_ret | apply final_drain].
Qed.

Lemma final_write a str :
  preserves (fun c => disconnecting c = true /\ attempts c = a) (write str).
Proof.
  pose proof (final_flushQueue a). unfold_methods. preserving final_leaf.
Qed.

Lemma final_do_call a cl :
  preserves (fun c => disconnecting c = true /\ attempts c = a) (do_call cl).
Proof.
  pose proof (final_write a).
  destruct cl; simpl; unfold set, get, delete, autodiscovery, disconnect,
    queue_push; preserving final_leaf.
Qed.

Lemma final_do_calls a cls :
  preserves (fun c => disconnecting c = true /\ attempts c = a) (do_calls cls).
Proof.
  induction cls as [|cl rest IH]; simpl.
  - apply preserves_ret.
  - apply preserves_bind; [apply final_do_call | intro; exact IH].
Qed.

Lemma final_handle a e :
  preserves (fun c => disconnecting c = true /\ attempts c = a) (handle e).
Proof.
  destruct e as [cl|line| | |]; cbn [handle].
  - apply final_do_call.
  - unfold_methods. preserving final_leaf.
  - pose proof (final_do_calls a). pose proof (final_flushQueue a).
    unfold on_connect. preserving final_leaf.
  - intros c [H1 H2].
    unfold on_close, bind, assign, this, attempts in *.
    destruct c; simpl in *. destruct reconnect0; simpl; [|auto].
    destruct client0; simpl in *; auto.
  - intros c [H1 H2].
    unfold on_timer, bind, assign, this, attempts in *.
    destruct c; simpl in *. subst disconnecting0.
    destruct timers0; simpl; auto.
Qed.

(** X11: disconnect is final for the socket handle.  The call sets
    [disconnecting]; from then on the flag stays set and, whatever calls,
    lines, closes and timers follow, the handle is never destroyed and no
    further connect attempt is made on it: a reconnect timer that fires
    finds the flag and does nothing. *)
Theorem no_reconnect_after_disconnect :
  forall c evs,
    disconnecting (exec disconnect c) = true
    /\ (disconnecting c = true ->
        disconnecting (run evs c) = true
        /\ attempts (run evs c) = attempts c).
Proof.
  intros c evs. split.
  - unfold exec, disconnect, bind, assign, on_client.
    destruct c; simpl. destruct client0; reflexivity.
  - intro H.
    exact (preserves_run _ (final_handle (attempts c)) evs c (conj H eq_refl)).
Qed.

Lemma no_reconnect_after_disconnect_witness :
  let c := run [SocketConnect; Call CallDisconnect; SocketClose]
               (new_Connection default_options) in
  disconnecting c = true
  /\ timers c = [None]
  /\ attempts (run [TimerFires; SocketClose; TimerFires] c) = Some (1, false).
Proof.
  intro c. split; [reflexivity|]. split; [reflexivity|].
  exact (proj2 (proj2 (no_reconnect_after_disconnect c
                         [TimerFires; SocketClose; TimerFires]) eq_refl)).
Defined.

(** ** Closes and reconnect timers *)

Lemma transport_handle e c :
  transport e = true ->
  correlation (exec (handle e) c) = correlation c
  /\ writeBuffer (exec (handle e) c) = writeBuffer c
  /\ written (exec (handle e) c) = written c
  /\ ready (exec (handle e) c) = ready c.
Proof.
  destruct e; try discriminate; intros _;
    unfold exec, handle, on_close, on_timer, connect, on_client, bind, assign,
      this, ret, correlation, written;
    destruct c; simpl.
  - destruct reconnect0; simpl; [|repeat split].
    destruct client0; simpl; repeat split.
  - destruct timers0; simpl; [repeat split|].
    destruct disconnecting0; simpl; [repeat split|].
    destruct client0; simpl; repeat split.
Qed.

(** X12: a close of the socket and a reconnect timer never settle, drop or
    reorder anything: over any sequence of such events the pending commands,
    the settlements, [this.data], the write buffer and what the socket was
    given are unchanged.  The flag [ready] is unchanged too: a connection
    that was ready stays ready after its socket closed. *)
Theorem closes_and_timers_keep_commands_and_buffer :
  forall evs c,
    forallb transport evs = true ->
    queue (run evs c) = queue c
    /\ settled (run evs c) = settled c
    /\ data (run evs c) = data c
    /\ writeBuffer (run evs c) = writeBuffer c
    /\ written (run evs c) = written c
    /\ ready (run evs c) = ready c.
Proof.
  intro evs. induction evs as [|e evs IH]; intros c H; simpl in *.
  - repeat split.
  - apply andb_prop in H. destruct H as [He Hevs].
    destruct (transport_handle e c He) as [H1 [H2 [H3 H4]]].
    destruct (IH (exec (handle e) c) Hevs) as [I1 [I2 [I3 [I4 [I5 I6]]]]].
    fold (exec (handle e) c) in *.
    unfold correlation in H1. injection H1 as Hq Hs _ Hd.
    rewrite I1, I2, I3, I4, I5, I6. repeat split; assumption.
Qed.

Lemma closes_and_timers_keep_commands_and_buffer_witness :
  let c := run [SocketConnect; Call (CallGet (JStr "k"))]
               (new_Connection default_options) in
  let evs := [SocketClose; TimerFires; SocketClose] in
  forallb transport evs = true
  /\ queue (run evs c) = [mkDeferred 0 (JStr "k") CmdGet]
  /\ ready (run evs c) = true.
Proof.
  intros c evs. split; [reflexivity|].
  pose proof (closes_and_timers_keep_commands_and_buffer evs c eq_refl) as H.
  split; [exact (proj1 H) | exact (proj2 (proj2 (proj2 (proj2 (proj2 H)))))].
Defined.

(** ** More on the lines of a response *)

Lemma read_data_line c v :
  classify v = IsData -> exec (read v) c = set_data (JStr v) c.
Proof.
  intro H. unfold exec. destruct (queue c) as [|d rest] eqn:Hq.
  - rewrite (read_idle c v Hq), H. reflexivity.
  - rewrite (read_pending c d rest v Hq), H. reflexivity.
Qed.

Lemma read_data_lines vs :
  forall v c,
    Forall (fun l => classify l = IsData) (vs ++ [v])%list ->
    run (map Line (vs ++ [v])%list) c = set_data (JStr v) c.
Proof.
  induction vs as [|u vs IH]; intros v c H; simpl.
  - inversion H; subst. apply read_data_line. assumption.
  - inversion H as [|? ? Hu Hrest]; subst.
    fold (exec (read u) c). rewrite (read_data_line c u Hu).
    rewrite (IH v _ Hrest). destruct c; reflexivity.
Qed.

(** X13: of several data lines that arrive before END only the last one is
    kept: a get whose value comes as the lines [vs] followed by [v] resolves
    to [v] alone, the earlier lines are overwritten one by one. *)
Theorem get_keeps_the_last_data_line :
  forall c d rest vs v line,
    queue c = d :: rest ->
    cmd d = CmdGet ->
    Forall (fun l => classify l = IsData) (vs ++ [v])%list ->
    substr0 3 line = "END" ->
    outcomes (run (map Line (vs ++ [v; line])%list) c)
    = (outcomes c ++ [(d_id d, Resolved (JStr v))])%list.
Proof.
  intros c d rest vs v line Hq Hg Hd He.
  replace (vs ++ [v; line])%list with ((vs ++ [v]) ++ [line])%list
    by (rewrite <- app_assoc; reflexivity).
  rewrite map_app. unfold run at 1. rewrite fold_left_app.
  fold (run (map Line (vs ++ [v])%list) c).
  rewrite (read_data_lines vs v c Hd). simpl.
  fold (exec (read line) (set_data (JStr v) c)).
  rewrite (get_end_value (set_data (JStr v) c) d rest line v).
  - destruct c; reflexivity.
  - destruct c; exact Hq.
  - exact Hg.
  - exact He.
  - destruct c; reflexivity.
  - intros ->. apply Forall_app in Hd. destruct Hd as [_ Hv].
    inversion Hv; subst. discriminate.
Qed.

Lemma get_keeps_the_last_data_line_witness :
  let c := run [SocketConnect; Call (CallGet (JStr "k"))]
               (new_Connection default_options) in
  Forall (fun l => classify l = IsData) (["first"] ++ ["second"])%list
  /\ outcomes (run (map Line ["first"; "second"; "END"]) c)
     = [(0, Resolved (JStr "second"))].
Proof.
  intro c.
  assert (H : Forall (fun l => classify l = IsData) (["first"] ++ ["second"])%list).
  { repeat constructor. }
  split; [exact H|].
  exact (get_keeps_the_last_data_line c (mkDeferred 0 (JStr "k") CmdGet) []
           ["first"] "second" "END" eq_refl eq_refl H eq_refl).
Defined.

(** ** More on autodiscovery *)

(** X14: a token of the payload that holds no bar has no piece 2: the
    callback formats the whole token and the text [undefined].  So a payload
    of plain host names resolves to the names followed by [:undefined]. *)
Theorem autodiscovery_without_bars_gives_undefined_ports :
  forall d h hs,
    cmd d = CmdAutodiscovery ->
    forallb plain (h :: hs) = true ->
    future d (Resolved (JStr (String.concat " " (h :: hs))))
    = Resolved (JArr (map (fun h => h ++ ":undefined") (h :: hs))).
Proof.
  intros d h hs Hd Hp. unfold future. rewrite Hd.
  unfold then_autodiscovery. cbn [toString fmt_s].
  assert (Hall : Forall (fun h => plain h = true) (h :: hs)).
  { apply Forall_forall. intros x Hx.
    exact (proj1 (forallb_forall _ _) Hp x Hx). }
  rewrite (split_concat " " hs h).
  - do 2 f_equal. apply map_ext_Forall.
    apply (Forall_impl _ (P := fun h => plain h = true)); [|exact Hall].
    intros x Hx. rewrite (split_none "|" x (proj2 (plain_parts x Hx))).
    reflexivity.
  - apply (Forall_impl _ (P := fun h => plain h = true)); [|exact Hall].
    intros x Hx. exact (proj1 (plain_parts x Hx)).
Qed.

Lemma autodiscovery_without_bars_gives_undefined_ports_witness :
  let d := mkDeferred 0 (JStr "autodiscovery") CmdAutodiscovery in
  cmd d = CmdAutodiscovery
  /\ forallb plain ["h1"; "h2"] = true
  /\ future d (Resolved (JStr "h1 h2"))
     = Resolved (JArr ["h1:undefined"; "h2:undefined"]).
Proof.
  intro d. split; [reflexivity|]. split; [reflexivity|].
  exact (autodiscovery_without_bars_gives_undefined_ports d "h1" ["h2"]
           eq_refl eq_refl).
Defined.

(** X15: an autodiscovery completed by END while nothing is accumulated is
    rejected: its callback calls [toString] on null or undefined, and the
    promise rejects with that TypeError instead of resolving to a list. *)
Theorem autodiscovery_without_payload_rejects :
  forall c d rest line,
    queue c = d :: rest ->
    cmd d = CmdAutodiscovery ->
    data c = JNull \/ data c = JUndefined ->
    substr0 3 line = "END" ->
    outcomes (exec (read line) c)
    = (outcomes c ++ [(d_id d, Rejected (TypeError "toString"))])%list.
Proof.
  intros c d rest line Hq Hd Ha He.
  rewrite (outcomes_terminal c d rest line Hq (terminal_end line He)).
  unfold verdict. rewrite (classify_end line He). unfold future. rewrite Hd.
  destruct Ha as [-> | ->]; reflexivity.
Qed.

Lemma autodiscovery_without_payload_rejects_witness :
  let c := run [SocketConnect; Call CallAutodiscovery]
               (new_Connection default_options) in
  (data c = JNull \/ data c = JUndefined)
  /\ outcomes (exec (read "END") c) = [(0, Rejected (TypeError "toString"))].
Proof.
  intro c. split; [right; reflexivity|].
  exact (autodiscovery_without_payload_rejects c
           (mkDeferred 0 (JStr "autodiscovery") CmdAutodiscovery) [] "END"
           eq_refl eq_refl (or_intror eq_refl) eq_refl).
Defined.

(** ** The commands of a run and their deferreds *)

Lemma callback_drain cb chunks :
  preserves (fun c => onConnect c = cb) (drain chunks).
Proof.
  induction chunks as [|chunk rest IH]; simpl.
  - apply preserves_ret.
  - unfold client_write. preserving kept_leaf.
Qed.

Lemma callback_flushQueue cb : preserves (fun c => onConnect c = cb) flushQueue.
Proof.
  unfold flushQueue. apply preserves_bind; [apply preserves_this|]. intro c.
  destruct (writeBuffer c) as [[|chunk rest]|];
    first [apply preserves_ret | apply callback_drain].
Qed.

Lemma callback_write cb str : preserves (fun c => onConnect c = cb) (write str).
Proof.
  pose proof (callback_flushQueue cb). unfold_methods. preserving kept_leaf.
Qed.

Lemma callback_do_call cb cl : preserves (fun c => onConnect c = cb) (do_call cl).
Proof.
  pose proof (callback_write cb).
  destruct cl; simpl; unfold set, get, delete, autodiscovery, disconnect,
    queue_push; preserving kept_leaf.
Qed.

Lemma callback_do_calls cb cls :
  preserves (fun c => onConnect c = cb) (do_calls cls).
Proof.
  induction cls as [|cl rest IH]; simpl.
  - apply preserves_ret.
  - apply preserves_bind; [apply callback_do_call | intro; exact IH].
Qed.

Lemma callback_handle cb e : preserves (fun c => onConnect c = cb) (handle e).
Proof.
  pose proof (callback_do_calls cb). pose proof (callback_flushQueue cb).
  destruct e as [cl|line| | |]; cbn [handle].
  - apply callback_do_call.
  - unfold_methods. preserving kept_leaf.
  - unfold on_connect. preserving kept_leaf.
  - unfold_methods. preserving kept_leaf.
  - unfold_methods. preserving kept_leaf.
Qed.

Lemma exec_then_ret {A} (m : M A) c : exec (m ;; ret tt) c = exec m c.
Proof.
  unfold exec, bind. destruct (m c) as [[a|e] c1]; reflexivity.
Qed.

Lemma numbered_app cmds1 :
  forall n cmds2,
    numbered n (cmds1 ++ cmds2)
    = (numbered n cmds1 ++ numbered (n + length cmds1) cmds2)%list.
Proof.
  induction cmds1 as [|[k cm] cmds1 IH]; intros n cmds2; simpl.
  - rewrite Nat.add_0_r. reflexivity.
  - rewrite IH. do 3 f_equal. lia.
Qed.

Lemma length_numbered cmds : forall n, length (numbered n cmds) = length cmds.
Proof.
  induction cmds as [|[k cm] cmds IH]; intro n; simpl; [|rewrite IH]; reflexivity.
Qed.

Lemma ids_numbered cmds :
  forall n, map d_id (numbered n cmds) = seq n (length cmds).
Proof.
  induction cmds as [|[k cm] cmds IH]; intro n; simpl; [|rewrite IH]; reflexivity.
Qed.

(** The promise a command returns is that of the deferred it queued. *)
Lemma writes_return (texts : list string) (d : deferred) :
  forall c,
    client c <> None ->
    fst (fold_right (fun text m => write text ;; m) (ret d) texts c) = Ok d.
Proof.
  induction texts as [|text texts IH]; intros c Hc; simpl.
  - reflexivity.
  - destruct (proj1 (tame_write text c) Hc) as [Hc1 [[] Hok]].
    destruct (write text c) as [[[]|e] c1] eqn:Hw; simpl in *;
      [|discriminate Hok].
    rewrite (bind_ok _ _ c tt c1 Hw). apply IH. exact Hc1.
Qed.

Lemma issue_returns k cm (texts : list string) c :
  client c <> None ->
  fst ((deferred <- defer k cm ;; queue_push deferred ;;
        fold_right (fun text m => write text ;; m) (ret deferred) texts) c)
  = Ok (mkDeferred (next_id c) k cm).
Proof.
  intro Hc. unfold bind at 1 2. unfold defer, queue_push, assign.
  apply writes_return. destruct c; exact Hc.
Qed.

(** What a call that is not refused does to the queue and the counter. *)
Lemma do_call_issues cl c :
  queue (exec (do_call cl) c)
  = (queue c ++ numbered (next_id c) (issue_of cl))%list
  /\ next_id (exec (do_call cl) c) = next_id c + length (issue_of cl)
  /\ settled (exec (do_call cl) c) = settled c.
Proof.
  assert (Hissue : forall k cm (texts : list string),
            let m := (deferred <- defer k cm ;; queue_push deferred ;;
                      fold_right (fun text m => write text ;; m) (ret deferred)
                        texts) in
            queue (exec (m ;; ret tt) c)
            = (queue c ++ [mkDeferred (next_id c) k cm])%list
            /\ next_id (exec (m ;; ret tt) c) = next_id c + 1
            /\ settled (exec (m ;; ret tt) c) = settled c).
  { intros k cm texts m. rewrite exec_then_ret.
    destruct (issue_numbered k cm
                (fun deferred =>
                   fold_right (fun text m => write text ;; m) (ret deferred)
                     texts) c) as [H1 [H2 H3]].
    { intro d. induction texts as [|text texts IH]; simpl; frame. }
    fold m in H1, H2, H3. rewrite H1, H2, H3.
    repeat split. lia. }
  destruct cl as [k val ttl|k|k| |]; cbn [do_call issue_of].
  - destruct (is_string k && length_below k 250) eqn:Hk.
    + destruct k as [| | | |s|l]; try discriminate Hk. simpl in Hk.
      assert (Heq : exec (set (JStr s) val ttl ;; ret tt) c
                    = exec ((deferred <- defer (JStr s) CmdSet ;;
                             queue_push deferred ;;
                             fold_right (fun text m => write text ;; m)
                               (ret deferred) [set_header s val ttl; val]) ;;
                            ret tt) c).
      { unfold exec. unfold bind at 1. rewrite (set_checked s val ttl c Hk).
        reflexivity. }
      rewrite Heq.
      exact (Hissue (JStr s) CmdSet [set_header s val ttl; val]).
    + destruct (set_refused k val ttl c Hk) as [msg Hmsg].
      unfold exec, bind. rewrite Hmsg. simpl.
      rewrite app_nil_r, Nat.add_0_r. auto.
  - exact (Hissue k CmdGet ["get " ++ fmt_s k]).
  - exact (Hissue k CmdDelete ["delete " ++ fmt_s k]).
  - exact (Hissue (JStr "autodiscovery") CmdAutodiscovery ["config get cluster"]).
  - pose proof (frames_disconnect c) as H. unfold correlation in H.
    injection H as Hq Hs Hn _. unfold exec. simpl.
    rewrite Hq, Hs, Hn, app_nil_r, Nat.add_0_r. auto.
Qed.

Lemma tracked_frames {A} (m : M A) cb cmds :
  frames m ->
  preserves has_socket m ->
  preserves (fun c => onConnect c = cb) m ->
  preserves (tracked cb cmds) m.
Proof.
  intros Hf Hs Ho c [H1 [H2 [H3 H4]]].
  pose proof (Hf c) as H. unfold correlation in H.
  injection H as Hq Hst Hn _.
  split; [exact (Hs c H1)|]. split; [exact (Ho c H2)|].
  rewrite Hq, Hst, Hn. auto.
Qed.

Lemma tracked_do_call cb cmds cl c :
  tracked cb cmds c ->
  tracked cb (cmds ++ issue_of cl) (exec (do_call cl) c).
Proof.
  intros [H1 [H2 [H3 H4]]].
  destruct (do_call_issues cl c) as [Hq [Hn Hs]].
  split; [exact (socket_do_call cl c H1)|].
  split; [exact (callback_do_call cb cl c H2)|].
  split.
  - rewrite Hq, Hs, app_assoc, H3, numbered_app, H4. reflexivity.
  - rewrite Hn, H4, length_app. reflexivity.
Qed.

Lemma tame_disconnect : tame disconnect.
Proof. unfold disconnect. taming. Qed.

(** A call returns normally on a connection with its socket, unless it is a
    refused set, which throws and changes nothing. *)
Lemma do_call_result cl c :
  has_socket c ->
  if refused cl
  then exists e, do_call cl c = (Throw e, c)
  else fst (do_call cl c) = Ok tt.
Proof.
  intro Hc.
  assert (Hissue : forall k cm (texts : list string),
            fst (((deferred <- defer k cm ;; queue_push deferred ;;
                   fold_right (fun text m => write text ;; m) (ret deferred)
                     texts) ;; ret tt) c) = Ok tt).
  { intros k cm texts. pose proof (issue_returns k cm texts c Hc) as H.
    unfold bind at 1.
    destruct ((deferred <- defer k cm ;; queue_push deferred ;;
               fold_right (fun text m => write text ;; m) (ret deferred) texts) c)
      as [[d|e] c1]; simpl in *; [reflexivity | discriminate H]. }
  destruct cl as [k val ttl|k|k| |]; cbn [refused do_call].
  - destruct (is_string k && length_below k 250) eqn:Hk; cbn [negb].
    + destruct k as [| | | |s|l]; try discriminate Hk. simpl in Hk.
      unfold bind at 1. rewrite (set_checked s val ttl c Hk).
      exact (Hissue (JStr s) CmdSet [set_header s val ttl; val]).
    + destruct (set_refused k val ttl c Hk) as [msg Hmsg].
      exists (AssertionError msg). unfold bind. rewrite Hmsg. reflexivity.
  - exact (Hissue k CmdGet ["get " ++ fmt_s k]).
  - exact (Hissue k CmdDelete ["delete " ++ fmt_s k]).
  - exact (Hissue (JStr "autodiscovery") CmdAutodiscovery ["config get cluster"]).
  - destruct (proj1 (tame_disconnect c) Hc) as [_ [[] H]]. exact H.
Qed.

Lemma issue_of_refused cl : refused cl = true -> issue_of cl = [].
Proof.
  destruct cl as [k val ttl|k|k| |]; simpl; try discriminate.
  destruct (is_string k && length_below k 250); [discriminate | reflexivity].
Qed.

Lemma tracked_do_calls cb cls :
  forall cmds c,
    tracked cb cmds c ->
    tracked cb (cmds ++ callback_issues cls) (snd (do_calls cls c)).
Proof.
  induction cls as [|cl rest IH]; intros cmds c Hc; simpl.
  - rewrite app_nil_r. exact Hc.
  - pose proof (do_call_result cl c (proj1 Hc)) as Hr.
    pose proof (tracked_do_call cb cmds cl c Hc) as Ht.
    destruct (refused cl) eqn:Hcl.
    + destruct Hr as [e He]. unfold bind. rewrite He. simpl.
      rewrite app_nil_r. exact Hc.
    + unfold exec in Ht. unfold bind.
      destruct (do_call cl c) as [[[]|e] c1]; simpl in *; [|discriminate Hr].
      rewrite app_assoc. apply IH. exact Ht.
Qed.

Lemma tracked_read cb cmds line : preserves (tracked cb cmds) (read line).
Proof.
  intros c [H1 [H2 [H3 H4]]].
  destruct (queue c) as [|d rest] eqn:Hq;
    [rewrite (read_idle c line Hq) | rewrite (read_pending c d rest line Hq)];
    destruct (classify line); unfold completed, tracked, has_socket in *;
    destruct c; simpl in *; subst;
    repeat split; try assumption;
    rewrite map_app, <- app_assoc; exact H3.
Qed.

Lemma tracked_handle cb cmds e c :
  tracked cb cmds c ->
  tracked cb (cmds ++ issued_by cb e) (exec (handle e) c).
Proof.
  intro Hc. destruct e as [cl|line| | |]; cbn [handle issued_by].
  - apply tracked_do_call. exact Hc.
  - rewrite app_nil_r. apply tracked_read. exact Hc.
  - unfold exec, on_connect.
    change ((assign (set_ready true) ;; assign (set_backoff 10) ;;
             c' <- this ;;
             match onConnect c' with
             | Some callback => do_calls callback ;; flushQueue
             | None => flushQueue
             end) c)
      with ((c' <- this ;;
             match onConnect c' with
             | Some callback => do_calls callback ;; flushQueue
             | None => flushQueue
             end) (set_backoff 10 (set_ready true c))).
    assert (Hc1 : tracked cb cmds (set_backoff 10 (set_ready true c))).
    { destruct c; exact Hc. }
    remember (set_backoff 10 (set_ready true c)) as c1 eqn:E. clear E Hc c.
    assert (Hflush : forall cmds', preserves (tracked cb cmds') flushQueue).
    { intro cmds'. apply tracked_frames.
      - apply frames_flushQueue.
      - apply socket_flushQueue.
      - apply callback_flushQueue. }
    unfold bind at 1. unfold this.
    destruct Hc1 as [H1 [H2 H34]]. rewrite H2.
    destruct cb as [cls|].
    + pose proof (tracked_do_calls (Some cls) cls cmds c1
                    (conj H1 (conj H2 H34))) as Ht.
      unfold bind. destruct (do_calls cls c1) as [[[]|e] c2]; simpl in *.
      * apply Hflush. exact Ht.
      * exact Ht.
    + rewrite app_nil_r. apply Hflush. exact (conj H1 (conj H2 H34)).
  - rewrite app_nil_r.
    apply (tracked_frames (handle SocketClose) cb cmds); try exact Hc.
    + simpl. frame.
    + apply socket_handle.
    + apply callback_handle.
  - rewrite app_nil_r.
    apply (tracked_frames (handle TimerFires) cb cmds); try exact Hc.
    + simpl. frame.
    + apply socket_handle.
    + apply callback_handle.
Qed.

Lemma tracked_run cb evs :
  forall cmds c,
    tracked cb cmds c ->
    tracked cb (cmds ++ issued cb evs) (run evs c).
Proof.
  induction evs as [|e evs IH]; intros cmds c Hc; simpl.
  - rewrite app_nil_r. exact Hc.
  - unfold issued. simpl. rewrite app_assoc.
    apply (IH (cmds ++ issued_by cb e)%list). apply tracked_handle. exact Hc.
Qed.

Lemma tracked_reachable opts evs :
  tracked (opt_onConnect opts) (issued (opt_onConnect opts) evs)
    (run evs (new_Connection opts)).
Proof.
  apply (tracked_run (opt_onConnect opts) evs []).
  unfold tracked, has_socket. simpl. repeat split. discriminate.
Qed.

Lemma ids_tracked cb cmds c :
  tracked cb cmds c ->
  (map fst (outcomes c) ++ map d_id (queue c))%list = seq 0 (length cmds).
Proof.
  intros [_ [_ [H _]]].
  rewrite outcomes_ids, <- (map_map fst d_id), <- map_app, H.
  apply ids_numbered.
Qed.

(** ** Settlement order, over the calls of a run *)

(** C3: on one connection the promises of the commands settle in the order
    the commands were issued, whatever calls, lines and socket events occur.
    Every get, delete and autodiscovery call and every set call with an
    accepted key, by the application or by the onConnect callback, creates
    one deferred, numbers it by its place among the commands issued so far
    and queues it, and returns the promise of that deferred; the deferreds
    settled so far, in settlement order, followed by those still queued are
    exactly the deferreds of the commands issued, in issue order.  So the
    numbers of the promises settled so far are 0, 1, 2, ... with no gap and
    no repeat, and when command [b] has settled, every command [a] issued
    before it settled earlier. *)
Theorem futures_settle_in_issue_order :
  forall opts evs a b j,
    a < b ->
    nth_error (map fst (outcomes (run evs (new_Connection opts)))) j = Some b ->
    (map fst (settled (run evs (new_Connection opts)))
       ++ queue (run evs (new_Connection opts)))%list
      = numbered 0 (issued (opt_onConnect opts) evs)
    /\ map fst (outcomes (run evs (new_Connection opts)))
       = seq 0 (length (outcomes (run evs (new_Connection opts))))
    /\ (exists i,
          i < j /\
          nth_error (map fst (outcomes (run evs (new_Connection opts)))) i
          = Some a)
    /\ (forall k,
          fst (get k (run evs (new_Connection opts)))
          = Ok (mkDeferred (length (issued (opt_onConnect opts) evs)) k CmdGet)
          /\ fst (delete k (run evs (new_Connection opts)))
             = Ok (mkDeferred (length (issued (opt_onConnect opts) evs)) k
                     CmdDelete))
    /\ (forall k val ttl,
          String.length k < 250 ->
          fst (set (JStr k) val ttl (run evs (new_Connection opts)))
          = Ok (mkDeferred (length (issued (opt_onConnect opts) evs)) (JStr k)
                  CmdSet)).
Proof.
  intros opts evs a b j Hab Hj.
  pose proof (tracked_reachable opts evs) as Ht.
  pose proof (sound_outcomes _ (sound_reachable opts evs)) as Hs.
  remember (run evs (new_Connection opts)) as c eqn:Hc. clear Hc.
  destruct Ht as [Hsock [_ [Hall Hn]]].
  split; [exact Hall|].
  rewrite length_outcomes. split; [exact Hs|]. split; [|split].
  - rewrite Hs in *. rewrite nth_error_seq in Hj.
    destruct (j <? length (settled c))%nat eqn:Hlt; [|discriminate].
    injection Hj as <-. apply Nat.ltb_lt in Hlt.
    exists a. split; [exact Hab|].
    rewrite nth_error_seq.
    replace (a <? length (settled c))%nat with true.
    + reflexivity.
    + symmetry. apply Nat.ltb_lt. lia.
  - intro k. rewrite <- Hn. split.
    + exact (issue_returns k CmdGet ["get " ++ fmt_s k] c Hsock).
    + exact (issue_returns k CmdDelete ["delete " ++ fmt_s k] c Hsock).
  - intros k val ttl Hlen. rewrite <- Hn.
    rewrite (set_checked k val ttl c)
      by (apply Nat.ltb_lt; exact Hlen).
    exact (issue_returns (JStr k) CmdSet [set_header k val ttl; val] c Hsock).
Qed.

Lemma futures_settle_in_issue_order_witness :
  let evs := [Call (CallSet (JStr "k") "v" None); Call (CallDelete (JStr "x"));
              Call (CallGet (JStr "k")); SocketConnect;
              Line "STORED"; Line "NOT_FOUND";
              Line "VALUE k 0 1"; Line "v"; Line "END"] in
  1 < 2
  /\ nth_error (map fst (outcomes (run evs (new_Connection default_options)))) 2
     = Some 2
  /\ numbered 0 (issued None evs)
     = [mkDeferred 0 (JStr "k") CmdSet; mkDeferred 1 (JStr "x") CmdDelete;
        mkDeferred 2 (JStr "k") CmdGet]
  /\ outcomes (run evs (new_Connection default_options))
     = [(0, Resolved JUndefined); (1, Resolved (JBool false));
        (2, Resolved (JStr "v"))]
  /\ exists i,
       i < 2 /\
       nth_error (map fst (outcomes (run evs (new_Connection default_options)))) i
       = Some 1.
Proof.
  intro evs.
  assert (H12 : 1 < 2) by lia.
  split; [exact H12|]. split; [reflexivity|]. split; [reflexivity|].
  split; [reflexivity|].
  exact (proj1 (proj2 (proj2 (futures_settle_in_issue_order default_options evs
                                1 2 2 H12 eq_refl)))).
Defined.

(** ** Every command is settled at most once *)

(** X2: at any moment the commands issued so far, by the calls of the
    application and of the onConnect callback, are each exactly once either
    settled or still in the queue: the deferreds settled so far followed by
    the queue are the deferreds of the commands issued, one per accepted
    call and in issue order, so no command is lost, no promise is settled
    twice, no settled command stays queued, and settled plus queued counts
    up to the number of commands issued. *)
Theorem every_command_is_settled_or_queued_once :
  forall opts evs,
    (map fst (settled (run evs (new_Connection opts)))
       ++ queue (run evs (new_Connection opts)))%list
      = numbered 0 (issued (opt_onConnect opts) evs)
    /\ NoDup (map fst (outcomes (run evs (new_Connection opts)))
                ++ map d_id (queue (run evs (new_Connection opts))))%list
    /\ (forall i,
          i < length (issued (opt_onConnect opts) evs) <->
          In i (map fst (outcomes (run evs (new_Connection opts)))
                  ++ map d_id (queue (run evs (new_Connection opts))))%list)
    /\ length (outcomes (run evs (new_Connection opts)))
       + length (queue (run evs (new_Connection opts)))
       = length (issued (opt_onConnect opts) evs).
Proof.
  intros opts evs.
  pose proof (tracked_reachable opts evs) as Ht.
  pose proof (ids_tracked _ _ _ Ht) as Hids.
  remember (run evs (new_Connection opts)) as c eqn:Hc. clear Hc.
  split; [exact (proj1 (proj2 (proj2 Ht)))|].
  rewrite Hids. split; [|split].
  - apply seq_NoDup.
  - intro i. rewrite in_seq. lia.
  - rewrite <- (length_map fst (outcomes c)).
    rewrite <- (length_map d_id (queue c)).
    rewrite <- length_app, Hids. apply length_seq.
Qed.

Lemma every_command_is_settled_or_queued_once_witness :
  let cb := Some [CallGet (JStr "c"); CallSet (JNum 1) "v" None;
                  CallGet (JStr "never")] in
  let opts := mkOptions None None None cb None in
  let evs := [Call (CallDelete (JStr "a")); Call (CallSet JNull "v" None);
              Call (CallGet (JStr "b")); SocketConnect; Line "DELETED"] in
  issued cb evs = [(JStr "a", CmdDelete); (JStr "b", CmdGet); (JStr "c", CmdGet)]
  /\ map fst (settled (run evs (new_Connection opts)))
     = [mkDeferred 0 (JStr "a") CmdDelete]
  /\ queue (run evs (new_Connection opts))
     = [mkDeferred 1 (JStr "b") CmdGet; mkDeferred 2 (JStr "c") CmdGet]
  /\ length (outcomes (run evs (new_Connection opts)))
     + length (queue (run evs (new_Connection opts))) = 3.
Proof.
  intros cb opts evs.
  split; [reflexivity|]. split; [reflexivity|]. split; [reflexivity|].
  exact (proj2 (proj2 (proj2 (every_command_is_settled_or_queued_once opts evs)))).
Defined.
